(** * dn_ds_analysis.py : country-grouped Ka/Ks pipeline

    A shallow embedding of [src/dn_ds_analysis.py]: the metadata normalizer
    ([normalize_country], [country_to_continent], [parse_header]), the
    sequence filter ([process_sequence]), and the task generation, dispatch
    and aggregation steps of [main].

    Conventions.
    - Python [str] values are [string]s over ASCII; the character classes
      below are the ASCII restrictions of [str.isalpha], [str.isdigit],
      [str.isspace], [str.upper] and [str.lower].
    - Python [int] is [Z], [None] is [option]'s [None], Python [float] is the
      kernel's binary64 [float].
    - [pycountry], [pycountry_convert] and [thefuzz] are external packages:
      they are the fields of the record [Catalog], and every statement is
      quantified over it.  A raised exception of one of them is [None]. *)

From Stdlib Require Import List String Ascii ZArith Bool Arith Lia Permutation.
From Stdlib Require Import Floats.
Import ListNotations.

Set Warnings "-inexact-float".

Open Scope string_scope.
Open Scope list_scope.
Open Scope nat_scope.

(* ================================================================== *)
(** ** Python string primitives *)
(* ================================================================== *)

Module PyStr.

Definition code (c : ascii) : nat := nat_of_ascii c.

Definition is_upper (c : ascii) : bool := (65 <=? code c) && (code c <=? 90).
Definition is_lower (c : ascii) : bool := (97 <=? code c) && (code c <=? 122).
Definition is_alpha (c : ascii) : bool := is_upper c || is_lower c.
Definition is_digit (c : ascii) : bool := (48 <=? code c) && (code c <=? 57).

(** [str.isspace] on one ASCII character: TAB, LF, VT, FF, CR, the four
    separators 0x1c-0x1f, and the blank. *)
Definition is_space (c : ascii) : bool :=
  ((9 <=? code c) && (code c <=? 13)) || ((28 <=? code c) && (code c <=? 32)).

Definition to_upper (c : ascii) : ascii :=
  if is_lower c then ascii_of_nat (code c - 32) else c.
Definition to_lower (c : ascii) : ascii :=
  if is_upper c then ascii_of_nat (code c + 32) else c.

Fixpoint map_chars (f : ascii -> ascii) (s : string) : string :=
  match s with
  | EmptyString => EmptyString
  | String c t => String (f c) (map_chars f t)
  end.

Definition upper : string -> string := map_chars to_upper.
Definition lower : string -> string := map_chars to_lower.

Fixpoint all_chars (p : ascii -> bool) (s : string) : bool :=
  match s with
  | EmptyString => true
  | String c t => p c && all_chars p t
  end.

Fixpoint contains (x : ascii) (s : string) : bool :=
  match s with
  | EmptyString => false
  | String c t => Ascii.eqb c x || contains x t
  end.

Definition nonempty (s : string) : bool :=
  match s with EmptyString => false | _ => true end.

(** [s.isalpha()] and [s.isdigit()]: every character in the class and at
    least one character. *)
Definition isalpha (s : string) : bool := nonempty s && all_chars is_alpha s.
Definition isdigit (s : string) : bool := nonempty s && all_chars is_digit s.

(** [s.replace(x, "")] for a one-character [x]. *)
Fixpoint remove_char (x : ascii) (s : string) : string :=
  match s with
  | EmptyString => EmptyString
  | String c t => if Ascii.eqb c x then remove_char x t else String c (remove_char x t)
  end.

(** [s.lstrip(chars)] and [s.rstrip(chars)], the stripped class given as a
    predicate. *)
Fixpoint lstrip_by (p : ascii -> bool) (s : string) : string :=
  match s with
  | EmptyString => EmptyString
  | String c t => if p c then lstrip_by p t else s
  end.

Fixpoint rstrip_by (p : ascii -> bool) (s : string) : string :=
  match s with
  | EmptyString => EmptyString
  | String c t =>
      match rstrip_by p t with
      | EmptyString => if p c then EmptyString else String c EmptyString
      | t' => String c t'
      end
  end.

Definition strip (s : string) : string := rstrip_by is_space (lstrip_by is_space s).

(** [s.split(sep)] for a one-character separator: never the empty list. *)
Fixpoint split (sep : ascii) (s : string) : list string :=
  match s with
  | EmptyString => [EmptyString]
  | String c t =>
      if Ascii.eqb c sep then EmptyString :: split sep t
      else match split sep t with
           | [] => [String c EmptyString]
           | h :: r => String c h :: r
           end
  end.

(** [s.replace(x, y)] for one-character [x] and [y]. *)
Definition replace_char (x y : ascii) : string -> string :=
  map_chars (fun c => if Ascii.eqb c x then y else c).

(** [xs[0]] on the result of a [split]. *)
Definition first (xs : list string) : string := hd EmptyString xs.

(** [int(s)] on a string of decimal digits. *)
Definition digit_val (c : ascii) : Z := Z.of_nat (code c - 48).

Fixpoint int_acc (acc : Z) (s : string) : Z :=
  match s with
  | EmptyString => acc
  | String c t => int_acc (10 * acc + digit_val c) t
  end.

Definition int (s : string) : Z := int_acc 0 s.

(** [s[lo:hi]] with Python's treatment of negative and out-of-range
    bounds: a negative bound counts from the end, and both are clamped to
    [0 .. len(s)]. *)
Definition clamp_index (len i : Z) : Z :=
  if (i <? 0)%Z then Z.max 0 (i + len) else Z.min i len.

Definition slice (s : string) (lo hi : Z) : string :=
  let len := Z.of_nat (String.length s) in
  let lo' := clamp_index len lo in
  let hi' := clamp_index len hi in
  String.substring (Z.to_nat lo') (Z.to_nat (hi' - lo')) s.

End PyStr.

(* ================================================================== *)
(** ** Country normalization *)
(* ================================================================== *)

(** One entry of [pycountry.countries], with the two attributes read. *)
Record Country : Type := mkCountry {
  name : string;
  alpha_2 : string
}.

(** The external packages.  [lookup] is [pycountry.countries.lookup]
    ([None] when it raises), [countries] the iteration order of
    [pycountry.countries], [extractOne] is [thefuzz.process.extractOne] on a
    non-empty choice list, and the last two are [pycountry_convert]'s
    conversions ([None] when they raise). *)
Record Catalog : Type := mkCatalog {
  countries : list Country;
  lookup : string -> option Country;
  extractOne : string -> list string -> string * Z;
  country_alpha2_to_continent_code : string -> option string;
  convert_continent_code_to_continent_name : string -> option string
}.

Definition Unknown : string := "Unknown".

Definition REGION_TO_COUNTRY : list (string * string) :=
  [ ("SARAWAK", "Malaysia");
    ("KCH", "Malaysia");
    ("MIRI", "Malaysia") ].

Fixpoint dict_get (k : string) (d : list (string * string)) : option string :=
  match d with
  | [] => None
  | (k', v) :: t => if String.eqb k k' then Some v else dict_get k t
  end.

(** [re.sub(r'(?<!^)(?=[A-Z])', ' ', s)]: a blank before every capital
    letter that is not the first character. *)
Fixpoint camel_tail (s : string) : string :=
  match s with
  | EmptyString => EmptyString
  | String c t =>
      if PyStr.is_upper c then String " " (String c (camel_tail t))
      else String c (camel_tail t)
  end.

Definition split_camel_case (s : string) : string :=
  match s with
  | EmptyString => EmptyString
  | String c t => String c (camel_tail t)
  end.

(** Lines 46-53 of [normalize_country]: the exact catalog lookup and, when
    it raises, the fuzzy match with its floor of 80. *)
Definition catalog_resolve (env : Catalog) (raw : string) : string :=
  match lookup env raw with
  | Some c => name c
  | None =>
      let names := map name (countries env) in
      let '(best, score) := extractOne env raw names in
      if (80 <=? score)%Z then best else Unknown
  end.

Definition normalize_country (env : Catalog) (raw : option string) : string :=
  match raw with
  | None => Unknown
  | Some raw =>
      if negb (PyStr.nonempty raw)
         || String.eqb (PyStr.lower raw) "na" || String.eqb (PyStr.lower raw) ""
      then Unknown
      else
        let raw := PyStr.strip (PyStr.first (PyStr.split "/" (PyStr.first (PyStr.split "_" raw)))) in
        let raw := split_camel_case raw in
        let raw_upper := PyStr.upper raw in
        match dict_get raw_upper REGION_TO_COUNTRY with
        | Some c => c
        | None => catalog_resolve env raw
        end
  end.

Definition country_to_continent (env : Catalog) (country : string) : string :=
  if String.eqb country Unknown then Unknown
  else
    match lookup env country with
    | None => Unknown
    | Some c =>
        match country_alpha2_to_continent_code env (alpha_2 c) with
        | None => Unknown
        | Some code =>
            match convert_continent_code_to_continent_name env code with
            | None => Unknown
            | Some continent => continent
            end
        end
    end.

(* ================================================================== *)
(** ** Header parser *)
(* ================================================================== *)

(** The third component of [parse_header]'s result: an [int] or the string
    ["Unknown"]. *)
Inductive year_field : Type :=
| Year (y : Z)
| YearUnknown.

(** [YEAR_RE.fullmatch(part)] for [(19|20)\d{2}]. *)
Definition year_fullmatch (part : string) : bool :=
  match part with
  | String a (String b (String c (String d EmptyString))) =>
      ((Ascii.eqb a "1" && Ascii.eqb b "9") || (Ascii.eqb a "2" && Ascii.eqb b "0"))
      && PyStr.is_digit c && PyStr.is_digit d
  | _ => false
  end.

(** The two loop bodies, as steps on the pair [(raw_country, year)]. *)
Definition pipe_step (st : option string * option Z) (part : string)
  : option string * option Z :=
  let '(raw_country, year) := st in
  if year_fullmatch part then (raw_country, Some (PyStr.int part))
  else if PyStr.isalpha part || PyStr.contains "_" part then (Some part, year)
  else st.

Definition slash_step (st : option string * option Z) (part : string)
  : option string * option Z :=
  let '(raw_country, year) := st in
  if PyStr.isdigit part
  then (raw_country,
        Some (if String.length part =? 2 then (2000 + PyStr.int part)%Z else PyStr.int part))
  else st.

Definition parse_header (env : Catalog) (header : string)
  : string * string * year_field :=
  let header := PyStr.strip (PyStr.remove_char ">" header) in
  let '(raw_country, year) :=
    if PyStr.contains "|" header
    then fold_left pipe_step (PyStr.split "|" header) (None, None)
    else if PyStr.contains "/" header
    then fold_left slash_step (PyStr.split "/" header) (Some "Malaysia", None)
    else (None, None) in
  let country := normalize_country env raw_country in
  ( match raw_country with
    | Some r => if PyStr.nonempty r then r else Unknown
    | None => Unknown
    end,
    country,
    match year with
    | Some y => if (y =? 0)%Z then YearUnknown else Year y
    | None => YearUnknown
    end ).

Definition extract_subgenotype (header : string) : string :=
  if PyStr.contains "#" header then PyStr.first (PyStr.split "#" header) else Unknown.

(* ================================================================== *)
(** ** Sequence processing *)
(* ================================================================== *)

(** Truth value of an optional [int]: [None] and [0] are false. *)
Definition truthy (x : option Z) : bool :=
  match x with
  | Some v => negb (v =? 0)%Z
  | None => false
  end.

Definition int_or (x : option Z) (d : Z) : Z :=
  match x with Some v => v | None => d end.

Definition is_N (c : ascii) : bool := Ascii.eqb c "N".

Definition len (s : string) : Z := Z.of_nat (String.length s).

(** Line 104: upper-case, then drop the leading and the trailing [N]s. *)
Definition trim_N (seq : string) : string :=
  PyStr.rstrip_by is_N (PyStr.lstrip_by is_N (PyStr.upper seq)).

(** Lines 106-107: the optional window. *)
Definition window (seq : string) (start stop : option Z) : string :=
  if truthy start || truthy stop
  then PyStr.slice seq
         (if truthy start then int_or start 0 - 1 else 0)%Z
         (if truthy stop then int_or stop 0 else len seq)
  else seq.

(** Lines 109-110: cut to a whole number of codons. *)
Definition frame (seq : string) : string :=
  let L := (len seq - len seq mod 3)%Z in
  PyStr.slice seq 0 L.

Definition process_sequence (seq : string) (start stop : option Z) : option string :=
  let seq := frame (window (trim_N seq) start stop) in
  if (90 <=? len seq)%Z then Some seq else None.

(* ================================================================== *)
(** ** Records, tasks and the KaKs_Calculator runner *)
(* ================================================================== *)

(** The parsed command line ([argparse]'s namespace). *)
Record Args : Type := mkArgs {
  input : string;
  output : string;
  gene : option string;
  start : option Z;
  stop : option Z;
  genetic_code : Z;
  method : string;
  verbose : bool;
  save_trimmed_fasta : bool
}.

(** One record of [SeqIO.parse(args.input, "fasta")]. *)
Record SeqRecord : Type := mkSeqRecord {
  sr_id : string;
  sr_description : string;
  sr_seq : string
}.

(** One dictionary appended to [records], a row of [df]. *)
Record record : Type := mkRecord {
  rec_id : string;
  seq : string;
  country : string;
  continent : string;
  year : year_field;
  subgenotype : string
}.

(** The argument tuple of [run_kaks_worker]. *)
Record task : Type := mkTask {
  seq1 : string;
  seq2 : string;
  gA : string;
  gB : string;
  task_genetic_code : Z;
  task_method : string;
  task_verbose : bool
}.

(** The external program as seen by [run_kaks_worker]: the two sequences
    written by [write_fasta], the genetic code and the method; [None] when
    the return code is not 0 or the output table cannot be read, else the
    [Ka] and [Ks] of its first row. *)
Definition Oracle : Type := string -> string -> Z -> string -> option (float * float).

(** What [write_fasta] writes for one sequence: the sequence and an [N]. *)
Definition fasta_body (s : string) : string := (s ++ "N")%string.

Definition pair_result : Type := string * string * float * float.

Definition run_kaks_worker (kaks : Oracle) (t : task) : option pair_result :=
  match kaks (fasta_body (seq1 t)) (fasta_body (seq2 t)) (task_genetic_code t) (task_method t) with
  | Some (ka, ks) => Some (gA t, gB t, ka, ks)
  | None => None
  end.

(* ================================================================== *)
(** ** Task generation (lines 214-228 of [main]) *)
(* ================================================================== *)

(** [Series.unique()]: the distinct values in order of first appearance. *)
Fixpoint unique (l : list string) : list string :=
  match l with
  | [] => []
  | x :: t => x :: filter (fun y => negb (String.eqb y x)) (unique t)
  end.

(** [itertools.combinations(l, 2)]. *)
Fixpoint combinations2 {A : Type} (l : list A) : list (A * A) :=
  match l with
  | [] => []
  | x :: t => map (pair x) t ++ combinations2 t
  end.

(** [df[df.country == c].seq]. *)
Definition seqs_of (df : list record) (c : string) : list string :=
  map seq (filter (fun r => String.eqb (country r) c) df).

Definition known_countries (df : list record) : list string :=
  filter (fun c => negb (String.eqb c Unknown)) (unique (map country df)).

Definition mk_task (args : Args) (a b c1 c2 : string) : task :=
  mkTask a b c1 c2 (genetic_code args) (method args) (verbose args).

Definition cross_tasks (args : Args) (df : list record) : list task :=
  flat_map
    (fun '(c1, c2) =>
       flat_map (fun a => map (fun b => mk_task args a b c1 c2) (seqs_of df c2))
                (seqs_of df c1))
    (combinations2 (known_countries df)).

Definition within_tasks (args : Args) (df : list record) : list task :=
  flat_map
    (fun c => map (fun '(a, b) => mk_task args a b c c) (combinations2 (seqs_of df c)))
    (known_countries df).

Definition gen_tasks (args : Args) (df : list record) : list task :=
  cross_tasks args df ++ within_tasks args df.

(* ================================================================== *)
(** ** Aggregation (lines 235-274 of [main]) *)
(* ================================================================== *)

Definition group_key : Type := string * string.

Definition key_eqb (k k' : group_key) : bool :=
  String.eqb (fst k) (fst k') && String.eqb (snd k) (snd k').

(** The dictionary [agg], in insertion order. *)
Definition agg_dict : Type := list (group_key * list (float * float)).

(** [agg.setdefault(k, []).append(v)]. *)
Fixpoint setdefault_append (k : group_key) (v : float * float) (agg : agg_dict) : agg_dict :=
  match agg with
  | [] => [(k, [v])]
  | (k', vs) :: t =>
      if key_eqb k k' then (k', vs ++ [v]) :: t
      else (k', vs) :: setdefault_append k v t
  end.

Definition agg_step (agg : agg_dict) (r : option pair_result) : agg_dict :=
  match r with
  | Some (a, b, ka, ks) => setdefault_append (a, b) (ka, ks) agg
  | None => agg
  end.

Definition build_agg (results : list (option pair_result)) : agg_dict :=
  fold_left agg_step results [].

(** [sum(xs)]: the items added from left to right, starting from 0 (the
    integer 0 added to the first float is that float, a negative zero
    apart). *)
Definition py_sum (xs : list float) : float :=
  fold_left PrimFloat.add xs 0%float.

(** [len(vals)] as the divisor of a float: exact below 2^53. *)
Definition float_of_nat (n : nat) : float :=
  PrimFloat.of_uint63 (Uint63.of_Z (Z.of_nat n)).

Definition mean (xs : list float) : float :=
  (py_sum xs / float_of_nat (List.length xs))%float.

Definition ratio_of (mean_ka mean_ks : float) : float :=
  if PrimFloat.eqb mean_ks 0%float then infinity else (mean_ka / mean_ks)%float.

(** One dictionary of [rows], a line of the output table. *)
Record row : Type := mkRow {
  Group_A : string;
  Group_B : string;
  Continent_A : string;
  Continent_B : string;
  mean_Ka : float;
  mean_Ks : float;
  Ka_Ks : float;
  pairs : nat;
  row_gene : option string;
  row_start : option Z;
  row_stop : option Z
}.

Definition base_row (env : Catalog) (args : Args) (k : group_key) (vals : list (float * float)) : row :=
  let mean_ka := mean (map fst vals) in
  let mean_ks := mean (map snd vals) in
  mkRow (fst k) (snd k)
        (country_to_continent env (fst k)) (country_to_continent env (snd k))
        mean_ka mean_ks (ratio_of mean_ka mean_ks) (List.length vals)
        (gene args) (start args) (stop args).

(** [{**base, "Group_A": gB, "Group_B": gA, "Continent_A": ..., "Continent_B": ...}]. *)
Definition mirror_row (base : row) : row :=
  mkRow (Group_B base) (Group_A base) (Continent_B base) (Continent_A base)
        (mean_Ka base) (mean_Ks base) (Ka_Ks base) (pairs base)
        (row_gene base) (row_start base) (row_stop base).

Definition rows_of_group (env : Catalog) (args : Args)
  (item : group_key * list (float * float)) : list row :=
  let '(k, vals) := item in
  let base := base_row env args k vals in
  if negb (String.eqb (fst k) (snd k)) then [base; mirror_row base] else [base].

Definition make_rows (env : Catalog) (args : Args) (agg : agg_dict) : list row :=
  flat_map (rows_of_group env args) agg.

(** The aggregator on a result list: lines 235-274 without the exit. *)
Definition aggregate (env : Catalog) (args : Args) (results : list (option pair_result)) : list row :=
  make_rows env args (build_agg results).

(* ================================================================== *)
(** ** The run: log, files and exit status *)
(* ================================================================== *)

Inductive log_level : Type := INFO | ERROR.

(** The messages [main] logs at level INFO and ERROR (DEBUG messages are
    not modelled). *)
Inductive log_msg : Type :=
| CountriesDetected
| CountryCount (c : string) (n : nat)
| NoUsableSequences
| TotalTasks (n : nat)
| ZeroUsableResults
| SummaryWritten (path : string)
| TrimmedWritten (path : string).

(** The files [main] writes: [args.output], and the trimmed FASTA next to
    it ([TrimmedFastaOf p] stands for [splitext(p)[0] + "_trimmed.fasta"]). *)
Inductive path : Type :=
| OutputCsv (p : string)
| TrimmedFastaOf (p : string).

Inductive file_content : Type :=
| Csv (rows : list row)
| Fasta (entries : list (string * string)).

Record World : Type := mkWorld {
  log : list (log_level * log_msg);
  files : list (path * file_content)
}.

Definition initial_world : World := mkWorld [] [].

(** A step either returns or leaves through [sys.exit]. *)
Inductive Res (A : Type) : Type :=
| Ret (a : A)
| Exit (status : Z).
Arguments Ret {A} a.
Arguments Exit {A} status.

Definition Prog (A : Type) : Type := World -> World * Res A.

Definition ret {A : Type} (a : A) : Prog A := fun w => (w, Ret a).

Definition bind {A B : Type} (m : Prog A) (k : A -> Prog B) : Prog B :=
  fun w =>
    match m w with
    | (w', Ret a) => k a w'
    | (w', Exit s) => (w', Exit s)
    end.

Notation "x <- m ;; k" := (bind m (fun x => k))
  (at level 61, m at next level, right associativity).
Notation "m ;; k" := (bind m (fun _ => k))
  (at level 61, right associativity).

Definition logging (lvl : log_level) (msg : log_msg) : Prog unit :=
  fun w => (mkWorld (log w ++ [(lvl, msg)]) (files w), Ret tt).

Definition sys_exit {A : Type} (status : Z) : Prog A :=
  fun w => (w, Exit status).

Definition write_file (p : path) (c : file_content) : Prog unit :=
  fun w => (mkWorld (log w) (files w ++ [(p, c)]), Ret tt).

Fixpoint for_each {A : Type} (l : list A) (body : A -> Prog unit) : Prog unit :=
  match l with
  | [] => ret tt
  | x :: t => body x ;; for_each t body
  end.

Definition when (b : bool) (m : Prog unit) : Prog unit :=
  if b then m else ret tt.

(** [country_counts[country] += 1] on a [Counter], in insertion order. *)
Fixpoint counter_incr (c : string) (cs : list (string * nat)) : list (string * nat) :=
  match cs with
  | [] => [(c, 1)]
  | (c', n) :: t =>
      if String.eqb c c' then (c', S n) :: t else (c', n) :: counter_incr c t
  end.

(** The loop over the input (lines 188-202): one step. *)
Definition load_step (env : Catalog) (args : Args)
  (st : list record * list (string * nat)) (rec : SeqRecord)
  : list record * list (string * nat) :=
  let '(records, country_counts) := st in
  let '(raw, country, year) := parse_header env (sr_description rec) in
  match process_sequence (sr_seq rec) (start args) (stop args) with
  | None => st
  | Some s =>
      if negb (PyStr.nonempty s) then st
      else
        (records ++ [mkRecord (sr_id rec) s country (country_to_continent env country)
                              year (extract_subgenotype (sr_description rec))],
         counter_incr country country_counts)
  end.

Definition load_records (env : Catalog) (args : Args) (fasta : list SeqRecord)
  : list record * list (string * nat) :=
  fold_left (load_step env args) fasta ([], []).

Definition is_nil {A : Type} (l : list A) : bool :=
  match l with [] => true | _ => false end.

Definition trimmed_entry (r : record) : string * string :=
  ((rec_id r ++ "_" ++ PyStr.replace_char " " "_" (country r))%string, seq r).

Definition main (env : Catalog) (kaks : Oracle) (args : Args) (fasta : list SeqRecord)
  : Prog unit :=
  let '(records, country_counts) := load_records env args fasta in
  logging INFO CountriesDetected ;;
  for_each country_counts (fun '(c, n) => logging INFO (CountryCount c n)) ;;
  when (is_nil records) (logging ERROR NoUsableSequences ;; sys_exit 1%Z) ;;
  let tasks := gen_tasks args records in
  logging INFO (TotalTasks (List.length tasks)) ;;
  let results := map (run_kaks_worker kaks) tasks in
  let agg := build_agg results in
  when (is_nil agg) (logging ERROR ZeroUsableResults ;; sys_exit 1%Z) ;;
  let rows := make_rows env args agg in
  write_file (OutputCsv (output args)) (Csv rows) ;;
  logging INFO (SummaryWritten (output args)) ;;
  when (save_trimmed_fasta args)
    (write_file (TrimmedFastaOf (output args)) (Fasta (map trimmed_entry records)) ;;
     logging INFO (TrimmedWritten (output args))).

(** The exit status of the process: 0 when [main] returns. *)
Definition exit_status {A : Type} (r : Res A) : Z :=
  match r with
  | Ret _ => 0%Z
  | Exit s => s
  end.

(* ================================================================== *)
(** * Vocabulary of the statements *)
(* ================================================================== *)

(** A sequence of [N]s, in either case, is emptied by the trimming. *)
Definition is_Nn (c : ascii) : bool := Ascii.eqb c "N" || Ascii.eqb c "n".

(** [n] copies of one base. *)
Fixpoint bases (c : ascii) (n : nat) : string :=
  match n with
  | O => EmptyString
  | S n => String c (bases c n)
  end.


(** A small catalog for the idempotence statement: two countries, a lookup
    by exact name, and a matcher that compares blank-free spellings. *)
Definition two_countries : list Country :=
  [ mkCountry "Malaysia" "MY"; mkCountry "Viet Nam" "VN" ].

Definition blank_free (s : string) : string := PyStr.remove_char " " s.

Definition small_catalog : Catalog :=
  mkCatalog two_countries
    (fun s => find (fun c => String.eqb (name c) s) two_countries)
    (fun q choices =>
       match find (fun n => String.eqb (blank_free n) (blank_free q)) choices with
       | Some n => (n, 100%Z)
       | None => (hd EmptyString choices, 0%Z)
       end)
    (fun a => if String.eqb a "MY" then Some "AS" else if String.eqb a "VN" then Some "AS" else None)
    (fun c => if String.eqb c "AS" then Some "Asia" else None).


(** The values of the results labelled [k], in arrival order. *)
Definition group_vals (k : group_key) (results : list (option pair_result))
  : list (float * float) :=
  flat_map
    (fun r => match r with
              | Some (a, b, ka, ks) => if key_eqb (a, b) k then [(ka, ks)] else []
              | None => []
              end)
    results.

(** [agg.get(k)]. *)
Fixpoint agg_get (k : group_key) (agg : agg_dict) : option (list (float * float)) :=
  match agg with
  | [] => None
  | (k', vs) :: t => if key_eqb k k' then Some vs else agg_get k t
  end.

(** Values already collected for a label, then the values that arrive. *)
Definition extend (o : option (list (float * float))) (vs : list (float * float))
  : option (list (float * float)) :=
  match o, vs with
  | None, [] => None
  | None, _ => Some vs
  | Some vs0, _ => Some (vs0 ++ vs)
  end.

(** The two results of the worked example. *)
Definition example_results : list (option pair_result) :=
  [ Some ("A", "B", 0.2%float, 0.1%float); Some ("A", "B", 0.4%float, 0.1%float) ].

(** The same two results in the two arrival orders. *)
Definition results_AA_BB : list (option pair_result) :=
  [ Some ("A", "A", 0.5%float, 0.5%float); Some ("B", "B", 0.5%float, 0.5%float) ].

Definition results_BB_AA : list (option pair_result) :=
  [ Some ("B", "B", 0.5%float, 0.5%float); Some ("A", "A", 0.5%float, 0.5%float) ].

(** The fields of a row that are not floating-point means. *)
Definition row_labels (r : row)
  : string * string * string * string * nat * option string * option Z * option Z :=
  (Group_A r, Group_B r, Continent_A r, Continent_B r, pairs r,
   row_gene r, row_start r, row_stop r).

(** The labels of the dictionary with the number of values of each, and
    the label fields of the rows emitted for a label with [n] values. *)
Definition agg_counts (agg : agg_dict) : list (group_key * nat) :=
  map (fun item => (fst item, List.length (snd item))) agg.

Definition labels_of_group (env : Catalog) (args : Args) (kn : group_key * nat)
  : list (string * string * string * string * nat * option string * option Z * option Z) :=
  map row_labels (rows_of_group env args (fst kn, repeat (0%float, 0%float) (snd kn))).

(** The log line of one entry of [country_counts]. *)
Definition count_msg (cn : string * nat) : log_level * log_msg :=
  (INFO, CountryCount (fst cn) (snd cn)).

(** A result that is not [None]. *)
Definition succeeded (r : option pair_result) : bool :=
  match r with Some _ => true | None => false end.

(** [main]'s run from a given world, in closed form. *)
Definition main_outcome (env : Catalog) (kaks : Oracle) (args : Args)
  (fasta : list SeqRecord) (w : World) : World * Res unit :=
  let records := fst (load_records env args fasta) in
  let counts := snd (load_records env args fasta) in
  let log1 := log w ++ [(INFO, CountriesDetected)] ++ map count_msg counts in
  if is_nil records
  then (mkWorld (log1 ++ [(ERROR, NoUsableSequences)]) (files w), Exit 1%Z)
  else
    let tasks := gen_tasks args records in
    let agg := build_agg (map (run_kaks_worker kaks) tasks) in
    let log2 := log1 ++ [(INFO, TotalTasks (List.length tasks))] in
    if is_nil agg
    then (mkWorld (log2 ++ [(ERROR, ZeroUsableResults)]) (files w), Exit 1%Z)
    else
      let files1 := files w ++ [(OutputCsv (output args), Csv (make_rows env args agg))] in
      let log3 := log2 ++ [(INFO, SummaryWritten (output args))] in
      if save_trimmed_fasta args
      then (mkWorld (log3 ++ [(INFO, TrimmedWritten (output args))])
                    (files1 ++ [(TrimmedFastaOf (output args),
                                 Fasta (map trimmed_entry records))]),
            Ret tt)
      else (mkWorld log3 files1, Ret tt).

(** The generator on rows of any kind [X] that carry a country: the
    pairs of rows behind the tasks, and their number by label. *)
Section PairingVocabulary.

Context {X : Type} (cty : X -> string).

Definition sel (rows : list X) (c : string) : list X :=
  filter (fun x => String.eqb (cty x) c) rows.

Definition known_of (rows : list X) : list string :=
  filter (fun c => negb (String.eqb c Unknown)) (unique (map cty rows)).

Definition cross_pairs (rows : list X) : list (X * X) :=
  flat_map (fun cc => list_prod (sel rows (fst cc)) (sel rows (snd cc)))
           (combinations2 (known_of rows)).

Definition within_pairs (rows : list X) : list (X * X) :=
  flat_map (fun c => combinations2 (sel rows c)) (known_of rows).

Definition paired (rows : list X) : list (X * X) :=
  cross_pairs rows ++ within_pairs rows.

(** The pairs whose rows are of country [a] and [b], in this order. *)
Definition labelled (a b : string) (p : X * X) : bool :=
  String.eqb (cty (fst p)) a && String.eqb (cty (snd p)) b.

Definition count_pairs (a b : string) (l : list (X * X)) : nat :=
  List.length (filter (labelled a b) l).

End PairingVocabulary.

(** The task made from a pair of records. *)
Definition task_of (args : Args) (p : record * record) : task :=
  mk_task args (seq (fst p)) (seq (snd p)) (country (fst p)) (country (snd p)).

(** The number of tasks labelled [(a, b)], and the number of records of
    a country. *)
Definition count_label (a b : string) (ts : list task) : nat :=
  List.length (filter (fun t => String.eqb (gA t) a && String.eqb (gB t) b) ts).

Definition n_seqs (df : list record) (c : string) : nat :=
  List.length (seqs_of df c).

(** The record at a position of [df], and the task made from two
    positions. *)
Definition blank_record : record :=
  mkRecord EmptyString EmptyString Unknown Unknown YearUnknown EmptyString.

Definition row_at (df : list record) (i : nat) : record := nth i df blank_record.

Definition task_at (args : Args) (df : list record) (ij : nat * nat) : task :=
  task_of args (row_at df (fst ij), row_at df (snd ij)).

(** The worked example: two records of A, three of B, one of C and one of
    unknown country, interleaved. *)
Definition example_record (i c s : string) : record :=
  mkRecord i s c Unknown YearUnknown Unknown.

Definition example_df : list record :=
  [ example_record "a1" "A" "AAA"; example_record "b1" "B" "CCC";
    example_record "u1" Unknown "AAA"; example_record "b2" "B" "CCC";
    example_record "c1" "C" "GGG"; example_record "a2" "A" "AAA";
    example_record "b3" "B" "TTT" ].

(** A command line, an input of four sequences (two of Malaysia, one of
    unknown country, one too short), and two oracles. *)
Definition example_args : Args :=
  mkArgs "in.fasta" "dnds_output.csv" (Some "VP1") None None 1%Z "YN" false false.

Definition example_fasta : list SeqRecord :=
  [ mkSeqRecord "s1" "Sarawak|2015" (bases "A" 93);
    mkSeqRecord "s2" "nnn|Miri_x|2016" (("nn" ++ bases "A" 95 ++ "N")%string);
    mkSeqRecord "s3" "NA|2014" (bases "C" 95);
    mkSeqRecord "s4" "Sarawak|2011" (bases "G" 60) ].

Definition always_fails : Oracle := fun _ _ _ _ => None.
Definition always_answers : Oracle := fun _ _ _ _ => Some (0.2%float, 0.1%float).

(** ** Vocabulary of the further properties *)

(** A year that is absent or lies between 1900 and 2099, and a year that
    is absent or not negative. *)
Definition year_in_range (y : option Z) : Prop :=
  match y with
  | Some v => (1900 <= v <= 2099)%Z
  | None => True
  end.

Definition year_nonneg (y : option Z) : Prop :=
  match y with
  | Some v => (0 <= v)%Z
  | None => True
  end.

(** A string that does not begin with a character of the class. *)
Definition starts_clean (p : ascii -> bool) (s : string) : Prop :=
  match s with
  | EmptyString => True
  | String c _ => p c = false
  end.

(** What the loop keeps of one input record: nothing, or one record. *)
Definition record_of (env : Catalog) (args : Args) (rec : SeqRecord) : list record :=
  match process_sequence (sr_seq rec) (start args) (stop args) with
  | None => []
  | Some s =>
      if negb (PyStr.nonempty s) then []
      else
        [mkRecord (sr_id rec) s
                  (snd (fst (parse_header env (sr_description rec))))
                  (country_to_continent env (snd (fst (parse_header env (sr_description rec)))))
                  (snd (parse_header env (sr_description rec)))
                  (extract_subgenotype (sr_description rec))]
  end.

(** A record the filter accepts. *)
Definition accepted (args : Args) (rec : SeqRecord) : bool :=
  match process_sequence (sr_seq rec) (start args) (stop args) with
  | Some _ => true
  | None => false
  end.

(** [country_counts.get(c)]. *)
Fixpoint counter_get (c : string) (cs : list (string * nat)) : option nat :=
  match cs with
  | [] => None
  | (c', n) :: t => if String.eqb c c' then Some n else counter_get c t
  end.

(** The counter after one more record. *)
Definition count_step (cs : list (string * nat)) (r : record) : list (string * nat) :=
  counter_incr (country r) cs.

(** The label of a row and of its mirror image. *)
Definition row_label (r : row) : group_key := (Group_A r, Group_B r).

Definition swap_key (k : group_key) : group_key := (snd k, fst k).

(** The labels of the rows emitted for one key of the dictionary. *)
Definition label_block (k : group_key) : list group_key :=
  if negb (String.eqb (fst k) (snd k)) then [k; swap_key k] else [k].

(** A pipe segment taken as raw country, and the year of a slash
    segment. *)
Definition country_like (part : string) : bool :=
  negb (year_fullmatch part) && (PyStr.isalpha part || PyStr.contains "_" part).

Definition slash_year (part : string) : Z :=
  if String.length part =? 2 then (2000 + PyStr.int part)%Z else PyStr.int part.

(** The last element of a list, or a default. *)
Definition last_or {A B : Type} (f : A -> B) (d : B) (l : list A) : B :=
  match rev l with
  | [] => d
  | x :: _ => f x
  end.

(* ================================================================== *)
(** * Properties *)
(* ================================================================== *)

(** ** Strings *)

Lemma substring_length (s : string) (n m : nat) :
  String.length (String.substring n m s) = Nat.min m (String.length s - n).
Proof.
  revert n m; induction s as [|c s IH]; intros n m.
  - destruct n, m; reflexivity.
  - destruct n as [|n].
    + destruct m as [|m]; simpl; [reflexivity|].
      rewrite IH, Nat.sub_0_r; reflexivity.
    + simpl. apply IH.
Qed.

Lemma substring_all (s : string) :
  String.substring 0 (String.length s) s = s.
Proof.
  induction s as [|c s IH]; simpl; [reflexivity | now rewrite IH].
Qed.

Lemma slice_length (s : string) (lo hi : Z) :
  len (PyStr.slice s lo hi)
  = Z.max 0 (PyStr.clamp_index (len s) hi - PyStr.clamp_index (len s) lo).
Proof.
  unfold PyStr.slice, len. rewrite substring_length.
  set (n := Z.of_nat (String.length s)).
  assert (Hn : (0 <= n)%Z) by (subst n; lia).
  assert (Hlo : (0 <= PyStr.clamp_index n lo <= n)%Z)
    by (unfold PyStr.clamp_index; destruct (lo <? 0)%Z eqn:E; lia).
  assert (Hhi : (0 <= PyStr.clamp_index n hi <= n)%Z)
    by (unfold PyStr.clamp_index; destruct (hi <? 0)%Z eqn:E; lia).
  subst n. lia.
Qed.

Lemma slice_whole (s : string) (hi : Z) :
  (len s <= hi)%Z -> PyStr.slice s 0 hi = s.
Proof.
  intros H. unfold PyStr.slice, PyStr.clamp_index, len in *.
  rewrite Z.ltb_irrefl.
  destruct (hi <? 0)%Z eqn:E; [lia|].
  rewrite Z.min_l, Z.min_r by lia.
  rewrite Z.sub_0_r, Nat2Z.id. apply substring_all.
Qed.

Lemma slice_clamp_hi (s : string) (lo hi : Z) :
  (len s <= hi)%Z -> PyStr.slice s lo hi = PyStr.slice s lo (len s).
Proof.
  intros H. unfold PyStr.slice, len in *.
  replace (PyStr.clamp_index (Z.of_nat (String.length s)) hi)
    with (PyStr.clamp_index (Z.of_nat (String.length s)) (Z.of_nat (String.length s)));
    [reflexivity|].
  unfold PyStr.clamp_index.
  destruct (hi <? 0)%Z eqn:E1; destruct (Z.of_nat (String.length s) <? 0)%Z eqn:E2; lia.
Qed.

Lemma frame_length (s : string) :
  len (frame s) = (len s - len s mod 3)%Z.
Proof.
  unfold frame. rewrite slice_length.
  assert (H0 : (0 <= len s)%Z) by (unfold len; lia).
  pose proof (Z.mod_pos_bound (len s) 3 ltac:(lia)) as Hm.
  pose proof (Z.mod_le (len s) 3 H0 ltac:(lia)) as Hle.
  unfold PyStr.clamp_index. rewrite Z.ltb_irrefl.
  destruct (len s - len s mod 3 <? 0)%Z eqn:E.
  - apply Z.ltb_lt in E. lia.
  - lia.
Qed.

Lemma frame_codons (s : string) : (len (frame s) mod 3 = 0)%Z.
Proof.
  rewrite frame_length.
  rewrite Zminus_mod, Z.mod_mod, Z.sub_diag by lia. reflexivity.
Qed.

Lemma lstrip_all (p : ascii -> bool) (s : string) :
  PyStr.all_chars p s = true -> PyStr.lstrip_by p s = EmptyString.
Proof.
  induction s as [|c s IH]; simpl; [reflexivity|].
  intros H; apply andb_prop in H as [Hc Hs]. rewrite Hc. auto.
Qed.

Lemma upper_all_N (s : string) :
  PyStr.all_chars is_Nn s = true -> PyStr.all_chars is_N (PyStr.upper s) = true.
Proof.
  induction s as [|c s IH]; simpl; [reflexivity|].
  intros H; apply andb_prop in H as [Hc Hs].
  apply andb_true_intro; split; [|apply IH; exact Hs].
  unfold is_Nn in Hc. apply orb_prop in Hc as [Hc|Hc];
    apply Ascii.eqb_eq in Hc; subst c; reflexivity.
Qed.

Lemma trim_all_N (s : string) :
  PyStr.all_chars is_Nn s = true -> trim_N s = EmptyString.
Proof.
  intros H. unfold trim_N. rewrite (lstrip_all _ _ (upper_all_N _ H)). reflexivity.
Qed.

Lemma slice_empty (lo hi : Z) : PyStr.slice EmptyString lo hi = EmptyString.
Proof.
  unfold PyStr.slice.
  destruct (Z.to_nat _), (Z.to_nat _); reflexivity.
Qed.

Lemma bases_all (p : ascii -> bool) (c : ascii) (n : nat) :
  p c = true -> PyStr.all_chars p (bases c n) = true.
Proof.
  intros H; induction n as [|n IH]; simpl; [reflexivity | now rewrite H, IH].
Qed.

(** ** The sequence filter *)

(** C5. The filter either rejects, and then the trimmed, windowed and
    codon-framed sequence is shorter than 90, or returns that sequence,
    whose length is at least 90 and a multiple of 3.  A sequence made of
    [N]s only (93 of them in particular) is rejected whatever the
    coordinates, because the trimming leaves nothing. *)
Theorem process_sequence_frame :
  (forall seq start stop,
      match process_sequence seq start stop with
      | Some s => s = frame (window (trim_N seq) start stop)
                  /\ (90 <= len s)%Z /\ (len s mod 3 = 0)%Z
      | None => (len (frame (window (trim_N seq) start stop)) < 90)%Z
      end)
  /\ (forall seq start stop,
         PyStr.all_chars is_Nn seq = true ->
         trim_N seq = EmptyString /\ process_sequence seq start stop = None)
  /\ (forall start stop, process_sequence (bases "N" 93) start stop = None).
Proof.
  assert (HN : forall seq start stop,
             PyStr.all_chars is_Nn seq = true ->
             trim_N seq = EmptyString /\ process_sequence seq start stop = None).
  { intros seq start stop H. split; [now apply trim_all_N|].
    unfold process_sequence. rewrite (trim_all_N _ H).
    unfold window, frame.
    destruct (truthy start || truthy stop); rewrite ?slice_empty; reflexivity. }
  split; [|split].
  - intros seq start stop. unfold process_sequence.
    destruct (90 <=? len (frame (window (trim_N seq) start stop)))%Z eqn:E.
    + apply Z.leb_le in E. split; [reflexivity|]. split; [exact E|apply frame_codons].
    + apply Z.leb_gt in E. exact E.
  - exact HN.
  - intros start stop. apply HN. apply bases_all. reflexivity.
Qed.

(** C10. For non-negative coordinates the filter is defined (it rejects or
    returns a sequence); a [stop] at or beyond the end of the trimmed
    sequence gives what no [stop] gives; and a coordinate 0 on either bound
    gives what the absent coordinate gives. *)
Theorem process_sequence_coordinates (seq : string) (start stop : Z)
  (Hstart : (0 <= start)%Z) (Hstop : (0 <= stop)%Z) :
  (process_sequence seq (Some start) (Some stop) = None
   \/ exists s, process_sequence seq (Some start) (Some stop) = Some s)
  /\ ((len (trim_N seq) <= stop)%Z ->
      process_sequence seq (Some start) (Some stop) = process_sequence seq (Some start) None
      /\ process_sequence seq None (Some stop) = process_sequence seq None None)
  /\ process_sequence seq (Some 0%Z) (Some stop) = process_sequence seq None (Some stop)
  /\ process_sequence seq (Some start) (Some 0%Z) = process_sequence seq (Some start) None
  /\ process_sequence seq (Some 0%Z) (Some 0%Z) = process_sequence seq None None.
Proof.
  split; [|split; [|repeat split; reflexivity]].
  - destruct (process_sequence seq (Some start) (Some stop)) as [s|]; eauto.
  - intros Hlen.
    assert (Hw : forall st, window (trim_N seq) st (Some stop) = window (trim_N seq) st None).
    { intros st. unfold window. simpl (truthy None). simpl (truthy (Some stop)).
      simpl (int_or (Some stop) 0).
      destruct (stop =? 0)%Z eqn:E0.
      - reflexivity.
      - simpl (negb false). rewrite orb_true_r. cbv iota.
        destruct (truthy st) eqn:Est; simpl orb; cbv iota.
        + apply slice_clamp_hi; exact Hlen.
        + apply slice_whole; exact Hlen. }
    unfold process_sequence. rewrite !Hw. split; reflexivity.
Qed.

Lemma process_sequence_coordinates_witness :
  (0 <= 1)%Z /\ (0 <= 200)%Z
  /\ process_sequence (bases "A" 100) (Some 1%Z) (Some 200%Z)
     = process_sequence (bases "A" 100) (Some 1%Z) None.
Proof.
  split; [lia|]. split; [lia|].
  destruct (process_sequence_coordinates (bases "A" 100) 1 200) as [_ [H _]]; [lia | lia |].
  apply H. vm_compute. discriminate.
Defined.

(** ** The metadata normalizer *)

(** C8. The absent token, the empty token and every spelling of [NA] are
    normalized to ["Unknown"]; the continent of ["Unknown"] is ["Unknown"];
    and whichever of the three catalog calls of [country_to_continent]
    fails, the result is ["Unknown"]. *)
Theorem unknown_sentinels (env : Catalog) :
  normalize_country env None = Unknown
  /\ normalize_country env (Some "") = Unknown
  /\ normalize_country env (Some "NA") = Unknown
  /\ (forall raw, PyStr.lower raw = "na" -> normalize_country env (Some raw) = Unknown)
  /\ country_to_continent env Unknown = Unknown
  /\ (forall country,
         lookup env country = None
         \/ (exists c, lookup env country = Some c
                       /\ country_alpha2_to_continent_code env (alpha_2 c) = None)
         \/ (exists c code, lookup env country = Some c
                            /\ country_alpha2_to_continent_code env (alpha_2 c) = Some code
                            /\ convert_continent_code_to_continent_name env code = None) ->
         country_to_continent env country = Unknown).
Proof.
  repeat split; try reflexivity.
  - intros raw H. unfold normalize_country. rewrite H. simpl.
    now rewrite orb_true_r.
  - intros country H. unfold country_to_continent.
    destruct (String.eqb country Unknown); [reflexivity|].
    destruct H as [H | [(c & H1 & H2) | (c & code & H1 & H2 & H3)]].
    + now rewrite H.
    + now rewrite H1, H2.
    + now rewrite H1, H2, H3.
Qed.

(** Against C4 as stated: the header [KCH_strain|2015] does not parse to the triple
    [("KCH", "Malaysia", 2015)], whatever the catalog: the raw token
    returned is the whole segment. *)
Lemma parse_header_KCH_not_stripped :
  ~ exists env, parse_header env "KCH_strain|2015" = ("KCH", "Malaysia", Year 2015%Z).
Proof.
  intros [env H].
  apply (f_equal (fun t => fst (fst t))) in H.
  cbv in H. discriminate H.
Qed.

(** C4 (amended). The header [KCH_strain|2015] parses to the raw token
    ["KCH_strain"], the whole pipe segment, to the normalization of that
    token as canonical country, and to the year 2015. *)
Theorem parse_header_KCH (env : Catalog) :
  parse_header env "KCH_strain|2015"
  = ("KCH_strain", normalize_country env (Some "KCH_strain"), Year 2015%Z).
Proof. reflexivity. Qed.

(** What the normalization of that token looks up: the region table is
    consulted with ["K C H"], the camel-split token, which is not one of
    its keys; a token without inner capitals reaches it. *)
Lemma region_table_after_camel_split (env : Catalog) :
  normalize_country env (Some "KCH_strain") = catalog_resolve env "K C H"
  /\ normalize_country env (Some "Kch_strain") = "Malaysia"
  /\ normalize_country env (Some "Sarawak") = "Malaysia".
Proof. repeat split; reflexivity. Qed.

Lemma split_no_sep (sep : ascii) (s : string) :
  PyStr.contains sep s = false -> PyStr.split sep s = [s].
Proof.
  induction s as [|c s IH]; simpl; [reflexivity|].
  intros H. apply orb_false_elim in H as [Hc Hs].
  rewrite Hc, (IH Hs). reflexivity.
Qed.





(** ** The aggregator *)

Lemma key_eqb_spec (k k' : group_key) : reflect (k = k') (key_eqb k k').
Proof.
  destruct k as [a b], k' as [a' b']. unfold key_eqb; simpl.
  destruct (String.eqb_spec a a'), (String.eqb_spec b b'); simpl;
    constructor; congruence.
Qed.

Lemma key_eqb_refl (k : group_key) : key_eqb k k = true.
Proof. destruct (key_eqb_spec k k); congruence. Qed.

Lemma agg_get_setdefault (k k' : group_key) (v : float * float) (agg : agg_dict) :
  agg_get k' (setdefault_append k v agg)
  = if key_eqb k' k
    then Some (match agg_get k agg with Some vs => vs ++ [v] | None => [v] end)
    else agg_get k' agg.
Proof.
  induction agg as [|[k0 vs0] t IH]; simpl.
  - reflexivity.
  - destruct (key_eqb_spec k k0) as [->|Hk]; simpl.
    + destruct (key_eqb_spec k' k0); reflexivity.
    + rewrite IH.
      destruct (key_eqb_spec k' k0) as [->|Hk'].
      * destruct (key_eqb_spec k0 k); [congruence | reflexivity].
      * reflexivity.
Qed.

Lemma keys_setdefault (k k' : group_key) (v : float * float) (agg : agg_dict) :
  In k' (map fst (setdefault_append k v agg)) <-> k' = k \/ In k' (map fst agg).
Proof.
  induction agg as [|[k0 vs0] t IH]; simpl.
  - intuition congruence.
  - destruct (key_eqb_spec k k0) as [->|Hk]; simpl.
    + intuition congruence.
    + rewrite IH. intuition congruence.
Qed.

Lemma NoDup_keys_setdefault (k : group_key) (v : float * float) (agg : agg_dict) :
  NoDup (map fst agg) -> NoDup (map fst (setdefault_append k v agg)).
Proof.
  induction agg as [|[k0 vs0] t IH]; simpl; intros H.
  - constructor; [intros [] | constructor].
  - inversion H as [|? ? Hin Hnd]; subst.
    destruct (key_eqb_spec k k0) as [->|Hk]; simpl.
    + constructor; assumption.
    + constructor; [|auto].
      rewrite keys_setdefault. intros [E|E]; [congruence | contradiction].
Qed.

Lemma agg_get_In (k : group_key) (vs : list (float * float)) (agg : agg_dict) :
  NoDup (map fst agg) -> (In (k, vs) agg <-> agg_get k agg = Some vs).
Proof.
  induction agg as [|[k0 vs0] t IH]; simpl; intros H.
  - split; [intros [] | discriminate].
  - inversion H as [|? ? Hin Hnd]; subst.
    destruct (key_eqb_spec k k0) as [->|Hk].
    + split.
      * intros [E|E]; [congruence|].
        exfalso; apply Hin. change k0 with (fst (k0, vs)). now apply in_map.
      * intros E; left; congruence.
    + rewrite <- (IH Hnd). split; [intros [E|E]; [congruence | exact E] | auto].
Qed.

Lemma agg_get_keys (k : group_key) (agg : agg_dict) :
  In k (map fst agg) <-> agg_get k agg <> None.
Proof.
  induction agg as [|[k0 vs0] t IH]; simpl.
  - intuition.
  - destruct (key_eqb_spec k k0) as [->|Hk].
    + split; [intros _; discriminate | auto].
    + rewrite <- IH. intuition congruence.
Qed.

Lemma agg_get_fold (k : group_key) (results : list (option pair_result)) (acc : agg_dict) :
  agg_get k (fold_left agg_step results acc)
  = extend (agg_get k acc) (group_vals k results).
Proof.
  revert acc; induction results as [|r rs IH]; intros acc; simpl.
  - destruct (agg_get k acc); simpl; [now rewrite app_nil_r | reflexivity].
  - rewrite IH. destruct r as [[[[a b] ka] ks]|]; simpl; [|reflexivity].
    rewrite agg_get_setdefault.
    destruct (key_eqb_spec k (a, b)) as [->|Hk].
    + rewrite key_eqb_refl. simpl.
      destruct (agg_get (a, b) acc) as [vs0|]; simpl.
      * now rewrite <- app_assoc.
      * reflexivity.
    + destruct (key_eqb_spec (a, b) k); [congruence | reflexivity].
Qed.

Lemma NoDup_keys_fold (results : list (option pair_result)) (acc : agg_dict) :
  NoDup (map fst acc) -> NoDup (map fst (fold_left agg_step results acc)).
Proof.
  revert acc; induction results as [|r rs IH]; intros acc H; simpl; [exact H|].
  apply IH. destruct r as [[[[a b] ka] ks]|]; simpl; [|exact H].
  now apply NoDup_keys_setdefault.
Qed.

Lemma NoDup_keys_build (results : list (option pair_result)) :
  NoDup (map fst (build_agg results)).
Proof. apply NoDup_keys_fold. constructor. Qed.

Lemma agg_get_build (k : group_key) (results : list (option pair_result)) :
  agg_get k (build_agg results)
  = match group_vals k results with [] => None | vs => Some vs end.
Proof.
  unfold build_agg. rewrite agg_get_fold. simpl.
  destruct (group_vals k results); reflexivity.
Qed.

(** The dictionary holds one entry per label that occurs, with the values
    of that label in arrival order. *)
Lemma build_agg_In (k : group_key) (vs : list (float * float))
  (results : list (option pair_result)) :
  In (k, vs) (build_agg results) <-> vs = group_vals k results /\ vs <> [].
Proof.
  rewrite (agg_get_In k vs _ (NoDup_keys_build results)), agg_get_build.
  destruct (group_vals k results) as [|v l] eqn:E.
  - split; [discriminate | intros [-> H]; congruence].
  - split; [intros [= <-]; split; [reflexivity | discriminate] | intros [-> _]; reflexivity].
Qed.

Lemma build_agg_keys (k : group_key) (results : list (option pair_result)) :
  In k (map fst (build_agg results)) <-> group_vals k results <> [].
Proof.
  rewrite agg_get_keys, agg_get_build.
  destruct (group_vals k results); split; congruence.
Qed.

Lemma make_rows_In (env : Catalog) (args : Args) (agg : agg_dict) (r : row) :
  In r (make_rows env args agg)
  <-> exists k vs, In (k, vs) agg /\ In r (rows_of_group env args (k, vs)).
Proof.
  unfold make_rows. rewrite in_flat_map. split.
  - intros [[k vs] [H1 H2]]. eauto.
  - intros (k & vs & H1 & H2). exists (k, vs). auto.
Qed.

Lemma base_row_In (env : Catalog) (args : Args) (k : group_key) (vs : list (float * float)) :
  In (base_row env args k vs) (rows_of_group env args (k, vs)).
Proof.
  unfold rows_of_group. destruct (negb _); left; reflexivity.
Qed.

Lemma float_neq (x y : float) : PrimFloat.eqb x y = false -> PrimFloat.eqb y y = true -> x <> y.
Proof. intros H1 H2 E. rewrite E in H1. congruence. Qed.

(** Against C2 as stated: no row of the example carries the mean 0.3 and
    the ratio 3.0, since in binary64 the sum 0.2 + 0.4 is rounded up. *)
Lemma example_means_not_exact :
  ~ exists env args r,
      In r (aggregate env args example_results)
      /\ mean_Ka r = 0.3%float /\ mean_Ks r = 0.1%float
      /\ Ka_Ks r = 3.0%float /\ pairs r = 2.
Proof.
  intros (env & args & r & Hin & Hka & _).
  assert (Hm : mean_Ka r = 0.30000000000000004%float).
  { cbv [aggregate example_results build_agg fold_left agg_step] in Hin.
    vm_compute setdefault_append in Hin.
    destruct Hin as [<- | [<- | []]]; vm_compute; reflexivity. }
  rewrite Hm in Hka. revert Hka. apply float_neq; vm_compute; reflexivity.
Qed.

(** C2 (amended). Every label that occurs among the results has its row in
    the output, carrying the left-to-right sum of the label's Ka values
    divided by their number, the same for Ks, the number of results, and a
    ratio that is [infinity] when the mean Ks equals zero and the quotient
    of the two means otherwise.  On the worked example the rows carry
    2 pairs, mean Ks 0.1 and, in binary64, mean Ka 0.30000000000000004 and
    ratio 3.0000000000000004; a group whose Ks are all zero gets the ratio
    [infinity]. *)
Theorem aggregate_group_means :
  (forall env args results a b,
      group_vals (a, b) results <> [] ->
      let vals := group_vals (a, b) results in
      exists r,
        In r (aggregate env args results)
        /\ Group_A r = a /\ Group_B r = b
        /\ mean_Ka r = (py_sum (map fst vals) / float_of_nat (List.length vals))%float
        /\ mean_Ks r = (py_sum (map snd vals) / float_of_nat (List.length vals))%float
        /\ pairs r = List.length vals
        /\ (PrimFloat.eqb (mean_Ks r) 0%float = true -> Ka_Ks r = infinity)
        /\ (PrimFloat.eqb (mean_Ks r) 0%float = false ->
            Ka_Ks r = (mean_Ka r / mean_Ks r)%float))
  /\ (forall env args,
         map (fun r => (Group_A r, Group_B r, mean_Ka r, mean_Ks r, Ka_Ks r, pairs r))
             (aggregate env args example_results)
         = [ ("A", "B", 0.30000000000000004%float, 0.1%float, 3.0000000000000004%float, 2);
             ("B", "A", 0.30000000000000004%float, 0.1%float, 3.0000000000000004%float, 2) ])
  /\ (forall env args,
         map (fun r => (mean_Ka r, mean_Ks r, Ka_Ks r, pairs r))
             (aggregate env args [Some ("A", "A", 0.5%float, 0%float); None;
                                  Some ("A", "A", 0.25%float, 0%float)])
         = [ (0.375%float, 0%float, infinity, 2) ]).
Proof.
  split; [|split; intros env args; vm_compute; reflexivity].
  intros env args results a b Hne vals.
  exists (base_row env args (a, b) vals).
  split.
  - unfold aggregate. apply make_rows_In. exists (a, b), vals.
    split; [apply build_agg_In; split; [reflexivity | exact Hne] | apply base_row_In].
  - simpl. unfold mean, ratio_of. rewrite !length_map.
    repeat split; try reflexivity.
    + intros E. now rewrite E.
    + intros E. now rewrite E.
Qed.

(** ** Mirrored rows *)

(** C3. The output is the concatenation of one block of rows per entry of
    the dictionary: the computed row alone when the two groups are equal,
    and otherwise the computed row followed by one row with the groups and
    the continents swapped and every other field unchanged.  So every row
    of the output has its mirror image in the output. *)
Theorem mirrored_rows (env : Catalog) (args : Args) (results : list (option pair_result)) :
  aggregate env args results
  = flat_map (rows_of_group env args) (build_agg results)
  /\ (forall k vals,
         In (k, vals) (build_agg results) ->
         let base := base_row env args k vals in
         Group_A base = fst k /\ Group_B base = snd k
         /\ (fst k = snd k -> rows_of_group env args (k, vals) = [base])
         /\ (fst k <> snd k ->
             exists m,
               rows_of_group env args (k, vals) = [base; m]
               /\ Group_A m = Group_B base /\ Group_B m = Group_A base
               /\ Continent_A m = Continent_B base /\ Continent_B m = Continent_A base
               /\ mean_Ka m = mean_Ka base /\ mean_Ks m = mean_Ks base
               /\ Ka_Ks m = Ka_Ks base /\ pairs m = pairs base
               /\ row_gene m = row_gene base /\ row_start m = row_start base
               /\ row_stop m = row_stop base))
  /\ (forall r,
         In r (aggregate env args results) ->
         exists r',
           In r' (aggregate env args results)
           /\ Group_A r' = Group_B r /\ Group_B r' = Group_A r
           /\ Continent_A r' = Continent_B r /\ Continent_B r' = Continent_A r
           /\ mean_Ka r' = mean_Ka r /\ mean_Ks r' = mean_Ks r
           /\ Ka_Ks r' = Ka_Ks r /\ pairs r' = pairs r
           /\ row_gene r' = row_gene r /\ row_start r' = row_start r
           /\ row_stop r' = row_stop r).
Proof.
  split; [reflexivity|]. split.
  - intros [a b] vals _ base. simpl fst; simpl snd.
    split; [reflexivity|]. split; [reflexivity|]. split.
    + intros ->. unfold rows_of_group. simpl. now rewrite String.eqb_refl.
    + intros Hab. exists (mirror_row base). unfold rows_of_group. simpl.
      apply String.eqb_neq in Hab. rewrite Hab. simpl.
      repeat split; reflexivity.
  - intros r Hr. unfold aggregate in *.
    apply make_rows_In in Hr as ([a b] & vs & Hin & Hr).
    unfold rows_of_group in Hr. simpl in Hr.
    destruct (String.eqb_spec a b) as [->|Hab]; simpl in Hr.
    + destruct Hr as [<-|[]].
      exists (base_row env args (b, b) vs). split.
      * apply make_rows_In. exists (b, b), vs. split; [exact Hin | apply base_row_In].
      * repeat split; reflexivity.
    + apply String.eqb_neq in Hab.
      destruct Hr as [<-|[<-|[]]].
      * exists (mirror_row (base_row env args (a, b) vs)). split.
        -- apply make_rows_In. exists (a, b), vs. split; [exact Hin|].
           unfold rows_of_group. simpl. rewrite Hab. right; left; reflexivity.
        -- repeat split; reflexivity.
      * exists (base_row env args (a, b) vs). split.
        -- apply make_rows_In. exists (a, b), vs. split; [exact Hin | apply base_row_In].
        -- repeat split; reflexivity.
Qed.

(** ** Arrival order *)

Lemma Permutation_flat_map {A B : Type} (f : A -> list B) (l l' : list A) :
  Permutation l l' -> Permutation (flat_map f l) (flat_map f l').
Proof.
  induction 1 as [|x l l' _ IH|x y l|l l' l'' _ IH1 _ IH2]; simpl.
  - constructor.
  - now apply Permutation_app_head.
  - rewrite !app_assoc. apply Permutation_app_tail, Permutation_app_comm.
  - now transitivity (flat_map f l').
Qed.

Lemma group_vals_Permutation (k : group_key) (rs rs' : list (option pair_result)) :
  Permutation rs rs' -> Permutation (group_vals k rs) (group_vals k rs').
Proof. apply Permutation_flat_map. Qed.

Lemma row_labels_group (env : Catalog) (args : Args) (k : group_key) (vs : list (float * float)) :
  map row_labels (rows_of_group env args (k, vs))
  = labels_of_group env args (k, List.length vs).
Proof.
  unfold labels_of_group, rows_of_group. simpl.
  destruct (negb (fst k =? snd k)%string); simpl;
    unfold row_labels; simpl; rewrite repeat_length; reflexivity.
Qed.

Lemma row_labels_make_rows (env : Catalog) (args : Args) (agg : agg_dict) :
  map row_labels (make_rows env args agg)
  = flat_map (labels_of_group env args) (agg_counts agg).
Proof.
  unfold make_rows. induction agg as [|[k vs] t IH]; [reflexivity|].
  cbn [flat_map agg_counts map fst snd]. rewrite map_app, IH, row_labels_group.
  reflexivity.
Qed.

Lemma agg_counts_In (k : group_key) (n : nat) (rs : list (option pair_result)) :
  In (k, n) (agg_counts (build_agg rs))
  <-> group_vals k rs <> [] /\ n = List.length (group_vals k rs).
Proof.
  unfold agg_counts. rewrite in_map_iff. split.
  - intros ([k' vs] & E & Hin). simpl in E. injection E as -> <-.
    apply build_agg_In in Hin as [-> Hne]. auto.
  - intros [Hne ->]. exists (k, group_vals k rs). split; [reflexivity|].
    apply build_agg_In. auto.
Qed.

Lemma NoDup_agg_counts (rs : list (option pair_result)) :
  NoDup (agg_counts (build_agg rs)).
Proof.
  apply (NoDup_map_inv fst). unfold agg_counts. rewrite map_map. simpl.
  apply NoDup_keys_build.
Qed.

Lemma agg_counts_Permutation (rs rs' : list (option pair_result)) :
  Permutation rs rs' ->
  Permutation (agg_counts (build_agg rs)) (agg_counts (build_agg rs')).
Proof.
  intros HP. apply NoDup_Permutation; try apply NoDup_agg_counts.
  intros [k n]. rewrite !agg_counts_In.
  pose proof (group_vals_Permutation k _ _ HP) as Hg.
  pose proof (Permutation_length Hg) as Hl.
  split; intros [Hne ->]; (split; [|congruence]); intros E; apply Hne.
  - rewrite E in Hg. now apply Permutation_sym, Permutation_nil in Hg.
  - rewrite E in Hg. now apply Permutation_nil in Hg.
Qed.

(** Against C9 as stated: the output depends on the arrival order, since
    the results of two groups, swapped, give the rows of the two groups in
    the other order. *)
Lemma aggregate_depends_on_order :
  Permutation results_AA_BB results_BB_AA
  /\ map Group_A (aggregate small_catalog example_args results_AA_BB) = ["A"; "B"]
  /\ map Group_A (aggregate small_catalog example_args results_BB_AA) = ["B"; "A"]
  /\ aggregate small_catalog example_args results_AA_BB
     <> aggregate small_catalog example_args results_BB_AA.
Proof.
  split; [apply perm_swap|]. split; [reflexivity|]. split; [reflexivity|].
  intros H. apply (f_equal (map Group_A)) in H. vm_compute in H. discriminate H.
Qed.

(** Within one label the left-to-right sums of 0.3, 0.2, 0.1 and of
    0.1, 0.2, 0.3 differ in the last place, and so do the means. *)
Lemma mean_depends_on_order :
  mean [0.3%float; 0.2%float; 0.1%float] <> mean [0.1%float; 0.2%float; 0.3%float].
Proof. apply float_neq; vm_compute; reflexivity. Qed.

(** C9 (amended). Permuting the results keeps the set of labels of the
    dictionary, the values collected for each label up to their order, and
    the rows of the output up to the order of the rows and up to the three
    floating-point columns. *)
Theorem aggregate_permutation (env : Catalog) (args : Args)
  (rs rs' : list (option pair_result)) :
  Permutation rs rs' ->
  Permutation (map fst (build_agg rs)) (map fst (build_agg rs'))
  /\ (forall k vs,
         In (k, vs) (build_agg rs) ->
         exists vs', In (k, vs') (build_agg rs') /\ Permutation vs vs')
  /\ Permutation (map row_labels (aggregate env args rs))
                 (map row_labels (aggregate env args rs')).
Proof.
  intros HP. split; [|split].
  - apply NoDup_Permutation; try apply NoDup_keys_build.
    intros k. rewrite !build_agg_keys.
    pose proof (group_vals_Permutation k _ _ HP) as Hg.
    split; intros Hne E; apply Hne; rewrite E in Hg.
    + now apply Permutation_sym, Permutation_nil in Hg.
    + now apply Permutation_nil in Hg.
  - intros k vs Hin. apply build_agg_In in Hin as [-> Hne].
    pose proof (group_vals_Permutation k _ _ HP) as Hg.
    exists (group_vals k rs'). split; [|exact Hg].
    apply build_agg_In. split; [reflexivity|].
    intros E. apply Hne. rewrite E in Hg. now apply Permutation_sym, Permutation_nil in Hg.
  - unfold aggregate. rewrite !row_labels_make_rows.
    apply Permutation_flat_map, agg_counts_Permutation, HP.
Qed.

Lemma aggregate_permutation_witness :
  Permutation (map row_labels
                 (aggregate small_catalog
                    (mkArgs "in.fasta" "dnds_output.csv" None None None 1%Z "YN" false false)
                    [Some ("Malaysia", "Viet Nam", 0.2%float, 0.1%float); None;
                     Some ("Malaysia", "Malaysia", 0.4%float, 0.1%float)]))
              (map row_labels
                 (aggregate small_catalog
                    (mkArgs "in.fasta" "dnds_output.csv" None None None 1%Z "YN" false false)
                    [Some ("Malaysia", "Malaysia", 0.4%float, 0.1%float);
                     Some ("Malaysia", "Viet Nam", 0.2%float, 0.1%float); None])).
Proof.
  apply (aggregate_permutation small_catalog).
  apply Permutation_sym.
  apply (Permutation_cons_app [Some ("Malaysia", "Viet Nam", 0.2%float, 0.1%float); None] []).
  reflexivity.
Defined.

(** ** The run *)

Lemma for_each_counts (l : list (string * nat)) (w : World) :
  for_each l (fun '(c, n) => logging INFO (CountryCount c n)) w
  = (mkWorld (log w ++ map count_msg l) (files w), Ret tt).
Proof.
  revert w; induction l as [|[c n] t IH]; intros w.
  - simpl. unfold ret. rewrite app_nil_r. now destruct w.
  - simpl. unfold bind, logging at 1. rewrite IH. simpl.
    now rewrite <- app_assoc.
Qed.

Lemma setdefault_not_nil (k : group_key) (v : float * float) (agg : agg_dict) :
  setdefault_append k v agg <> [].
Proof.
  destruct agg as [|[k0 vs0] t]; simpl; [discriminate|].
  destruct (key_eqb k k0); discriminate.
Qed.

Lemma fold_agg_nil (results : list (option pair_result)) (acc : agg_dict) :
  fold_left agg_step results acc = []
  <-> acc = [] /\ forall r, In r results -> r = None.
Proof.
  revert acc; induction results as [|r rs IH]; intros acc; simpl.
  - intuition.
  - rewrite IH. destruct r as [[[[a b] ka] ks]|]; simpl.
    + split.
      * intros [H _]. now apply setdefault_not_nil in H.
      * intros [_ H]. specialize (H _ (or_introl eq_refl)). discriminate H.
    + split; intros [H1 H2]; (split; [exact H1|]).
      * intros r [<-|Hr]; auto.
      * intros r Hr. apply H2. now right.
Qed.

Lemma build_agg_nil (results : list (option pair_result)) :
  build_agg results = [] <-> forall r, In r results -> r = None.
Proof. unfold build_agg. rewrite fold_agg_nil. intuition. Qed.

Lemma fold_agg_succeeded (results : list (option pair_result)) (acc : agg_dict) :
  fold_left agg_step (filter succeeded results) acc = fold_left agg_step results acc.
Proof.
  revert acc; induction results as [|r rs IH]; intros acc; [reflexivity|].
  destruct r; simpl; apply IH.
Qed.

Lemma main_closed_form (env : Catalog) (kaks : Oracle) (args : Args)
  (fasta : list SeqRecord) (w : World) :
  main env kaks args fasta w = main_outcome env kaks args fasta w.
Proof.
  unfold main, main_outcome.
  destruct (load_records env args fasta) as [records counts]. simpl fst; simpl snd.
  unfold bind at 1. unfold logging at 1.
  unfold bind at 1. rewrite for_each_counts. simpl.
  unfold bind at 1.
  destruct records as [|r0 records']; simpl.
  - rewrite <- !app_assoc. reflexivity.
  - set (records := r0 :: records').
    unfold bind at 1. unfold logging at 1. simpl.
    unfold bind at 1.
    destruct (build_agg (map (run_kaks_worker kaks) (gen_tasks args records))) as [|e agg'] eqn:Eagg;
      simpl.
    + rewrite <- !app_assoc. reflexivity.
    + destruct (save_trimmed_fasta args);
        unfold when, bind, write_file, logging, ret; simpl;
        rewrite <- !app_assoc; reflexivity.
Qed.

(** C7. From the initial world: when no record survives the filter the run
    logs the error and exits with status 1, and no file has been written;
    when records survive but every task fails, the same with the second
    error; and as soon as one task succeeds the run returns normally and
    writes the table aggregated from the results of the tasks that
    succeeded, the failed ones contributing nothing. *)
Theorem main_fatal_conditions (env : Catalog) (kaks : Oracle) (args : Args)
  (fasta : list SeqRecord) :
  let records := fst (load_records env args fasta) in
  let tasks := gen_tasks args records in
  let results := map (run_kaks_worker kaks) tasks in
  let run := main env kaks args fasta initial_world in
  (records = [] ->
   snd run = Exit 1%Z /\ exit_status (snd run) <> 0%Z /\ files (fst run) = []
   /\ exists l, log (fst run) = l ++ [(ERROR, NoUsableSequences)])
  /\ (records <> [] ->
      (forall t, In t tasks -> run_kaks_worker kaks t = None) ->
      snd run = Exit 1%Z /\ exit_status (snd run) <> 0%Z /\ files (fst run) = []
      /\ exists l, log (fst run) = l ++ [(ERROR, ZeroUsableResults)])
  /\ ((exists t, In t tasks /\ run_kaks_worker kaks t <> None) ->
      snd run = Ret tt /\ exit_status (snd run) = 0%Z
      /\ hd_error (files (fst run))
         = Some (OutputCsv (output args),
                 Csv (aggregate env args (filter succeeded results)))
      /\ aggregate env args results = aggregate env args (filter succeeded results)).
Proof.
  intros records tasks results run.
  assert (Hrun : run = main_outcome env kaks args fasta initial_world)
    by apply main_closed_form.
  assert (Hsucc : aggregate env args results = aggregate env args (filter succeeded results)).
  { unfold aggregate, build_agg. now rewrite fold_agg_succeeded. }
  unfold main_outcome in Hrun. fold records in Hrun. fold tasks in Hrun.
  fold results in Hrun.
  split; [|split].
  - intros E. rewrite E in Hrun. simpl in Hrun. rewrite Hrun. simpl.
    repeat split; [discriminate|].
    exists ((INFO, CountriesDetected) :: map count_msg (snd (load_records env args fasta))).
    reflexivity.
  - intros Hne Hall.
    destruct records as [|r0 rs] eqn:Erec; [congruence|].
    assert (Hagg : build_agg results = []).
    { apply build_agg_nil. intros r Hr. unfold results in Hr.
      apply in_map_iff in Hr as (t & <- & Ht). now apply Hall. }
    rewrite Hagg in Hrun. simpl in Hrun. rewrite Hrun. simpl.
    repeat split; [discriminate|].
    exists (((INFO, CountriesDetected) :: map count_msg (snd (load_records env args fasta)))
            ++ [(INFO, TotalTasks (List.length tasks))]).
    simpl. now rewrite <- !app_assoc.
  - intros (t & Ht & Hok).
    destruct records as [|r0 rs] eqn:Erec.
    { exfalso. exact Ht. }
    destruct (build_agg results) as [|e agg'] eqn:Eagg.
    { exfalso. apply Hok. rewrite build_agg_nil in Eagg. apply Eagg.
      unfold results. now apply in_map. }
    rewrite <- Hsucc. unfold aggregate. rewrite Eagg.
    simpl in Hrun. rewrite Hrun.
    destruct (save_trimmed_fasta args); simpl; repeat split; reflexivity.
Qed.

(** ** Task generation *)

Lemma unique_In (x : string) (l : list string) : In x (unique l) <-> In x l.
Proof.
  induction l as [|y t IH]; simpl; [tauto|].
  rewrite filter_In, IH, negb_true_iff, String.eqb_neq.
  destruct (String.string_dec x y) as [->|Hn]; intuition congruence.
Qed.

Lemma unique_NoDup (l : list string) : NoDup (unique l).
Proof.
  induction l as [|y t IH]; simpl; constructor.
  - rewrite filter_In, String.eqb_refl. intros [_ H]; discriminate H.
  - now apply NoDup_filter.
Qed.

Section Combinations.

Context {A : Type}.

Lemma combinations2_In (a b : A) (l : list A) :
  In (a, b) (combinations2 l) -> In a l /\ In b l.
Proof.
  induction l as [|x t IH]; simpl; [tauto|].
  rewrite in_app_iff, in_map_iff.
  intros [(y & E & Hy) | H].
  - injection E as <- <-. auto.
  - destruct (IH H). auto.
Qed.

Lemma combinations2_NoDup (l : list A) : NoDup l -> NoDup (combinations2 l).
Proof.
  induction 1 as [|x t Hx Hnd IH]; simpl; [constructor|].
  apply NoDup_app.
  - apply NoDup_map_NoDup_ForallPairs; [|exact Hnd].
    intros y z _ _ E. now injection E.
  - exact IH.
  - intros [a b]. rewrite in_map_iff. intros (y & E & Hy) H.
    injection E as <- <-. apply combinations2_In in H as [H _]. contradiction.
Qed.

Lemma combinations2_asym (a b : A) (l : list A) :
  NoDup l -> In (a, b) (combinations2 l) -> a <> b /\ ~ In (b, a) (combinations2 l).
Proof.
  induction 1 as [|x t Hx Hnd IH]; simpl; [tauto|].
  rewrite !in_app_iff, !in_map_iff.
  intros [(y & E & Hy) | H].
  - injection E as <- <-. split; [congruence|].
    intros [(z & E & Hz) | H].
    + injection E as <- <-. contradiction.
    + apply combinations2_In in H as [_ H]. contradiction.
  - destruct (IH H) as [Hab Hba]. split; [exact Hab|].
    intros [(z & E & Hz) | H'].
    + injection E as <- <-. apply combinations2_In in H as [_ H]. contradiction.
    + contradiction.
Qed.

Lemma combinations2_total (a b : A) (l : list A) :
  In a l -> In b l -> a <> b ->
  In (a, b) (combinations2 l) \/ In (b, a) (combinations2 l).
Proof.
  induction l as [|x t IH]; simpl; [tauto|].
  rewrite !in_app_iff, !in_map_iff.
  intros [->|Ha] [->|Hb] Hab.
  - congruence.
  - left; left. exists b. auto.
  - right; left. exists a. auto.
  - destruct (IH Ha Hb Hab); auto.
Qed.

Lemma combinations2_length (l : list A) :
  2 * List.length (combinations2 l) = List.length l * (List.length l - 1).
Proof.
  induction l as [|x t IH]; simpl; [reflexivity|].
  rewrite length_app, length_map, Nat.sub_0_r.
  destruct t as [|y t']; simpl in *; nia.
Qed.

Lemma list_prod_NoDup {B : Type} (l : list A) (l' : list B) :
  NoDup l -> NoDup l' -> NoDup (list_prod l l').
Proof.
  intros Hl Hl'. induction Hl as [|x t Hx Hnd IH]; simpl; [constructor|].
  apply NoDup_app.
  - apply NoDup_map_NoDup_ForallPairs; [|exact Hl'].
    intros y z _ _ E. now injection E.
  - exact IH.
  - intros [a b]. rewrite in_map_iff, in_prod_iff. intros (y & E & Hy) [H _].
    injection E as <- <-. contradiction.
Qed.

(** Blocks that can be told apart by a key of their elements do not
    overlap. *)
Lemma flat_map_NoDup {B : Type} (f : A -> list B) (key : B -> A) (l : list A) :
  NoDup l ->
  (forall a, In a l -> NoDup (f a)) ->
  (forall a b, In a l -> In b (f a) -> key b = a) ->
  NoDup (flat_map f l).
Proof.
  induction 1 as [|x t Hx Hnd IH]; intros Hf Hkey; simpl; [constructor|].
  apply NoDup_app.
  - apply Hf. now left.
  - apply IH; intros; [apply Hf | apply Hkey]; simpl; auto.
  - intros b Hb H. apply in_flat_map in H as (a & Ha & Hba).
    assert (key b = x) by (apply Hkey; simpl; auto).
    assert (key b = a) by (apply Hkey; simpl; auto).
    congruence.
Qed.

End Combinations.

Lemma combinations2_map {A B : Type} (f : A -> B) (l : list A) :
  combinations2 (map f l) = map (fun p => (f (fst p), f (snd p))) (combinations2 l).
Proof.
  induction l as [|x t IH]; simpl; [reflexivity|].
  now rewrite map_app, !map_map, IH.
Qed.

Lemma list_prod_map {A B : Type} (f : A -> B) (l l' : list A) :
  list_prod (map f l) (map f l') = map (fun p => (f (fst p), f (snd p))) (list_prod l l').
Proof.
  induction l as [|x t IH]; simpl; [reflexivity|].
  now rewrite map_app, !map_map, IH.
Qed.

Lemma flat_map_map {A B C : Type} (f : A -> list B) (g : B -> C) (l : list A) :
  flat_map (fun a => map g (f a)) l = map g (flat_map f l).
Proof.
  induction l as [|x t IH]; simpl; [reflexivity|].
  now rewrite map_app, IH.
Qed.

Lemma filter_map_comm {A B : Type} (f : A -> B) (p : B -> bool) (l : list A) :
  filter p (map f l) = map f (filter (fun x => p (f x)) l).
Proof.
  induction l as [|x t IH]; simpl; [reflexivity|].
  destruct (p (f x)); simpl; now rewrite IH.
Qed.

(** Pairs of rows: membership. *)
Section Pairing.

Context {X : Type} (cty : X -> string).

Lemma sel_In (rows : list X) (c : string) (x : X) :
  In x (sel cty rows c) <-> In x rows /\ cty x = c.
Proof. unfold sel. now rewrite filter_In, String.eqb_eq. Qed.

Lemma known_of_In (rows : list X) (c : string) :
  In c (known_of cty rows) <-> c <> Unknown /\ exists x, In x rows /\ cty x = c.
Proof.
  unfold known_of. rewrite filter_In, unique_In, in_map_iff, negb_true_iff, String.eqb_neq.
  split.
  - intros [(x & E & Hx) Hc]. eauto.
  - intros [Hc (x & Hx & E)]. eauto.
Qed.

Lemma known_of_NoDup (rows : list X) : NoDup (known_of cty rows).
Proof. apply NoDup_filter, unique_NoDup. Qed.

Lemma cross_pairs_In (rows : list X) (x y : X) :
  In (x, y) (cross_pairs cty rows)
  <-> In x rows /\ In y rows /\ In (cty x, cty y) (combinations2 (known_of cty rows)).
Proof.
  unfold cross_pairs. rewrite in_flat_map. split.
  - intros ([c1 c2] & Hcc & H). simpl in H.
    apply in_prod_iff in H as [Hx Hy].
    apply sel_In in Hx as [Hx <-]. apply sel_In in Hy as [Hy <-]. auto.
  - intros (Hx & Hy & Hcc). exists (cty x, cty y). split; [exact Hcc|].
    simpl. apply in_prod_iff. rewrite !sel_In. auto.
Qed.

Lemma within_pairs_In (rows : list X) (x y : X) :
  In (x, y) (within_pairs cty rows)
  <-> cty x <> Unknown /\ cty x = cty y
      /\ In (x, y) (combinations2 (sel cty rows (cty x))).
Proof.
  unfold within_pairs. rewrite in_flat_map. split.
  - intros (c & Hc & H).
    destruct (combinations2_In _ _ _ H) as [Hx Hy].
    apply sel_In in Hx as [Hx <-]. apply sel_In in Hy as [Hy Hxy].
    apply known_of_In in Hc as [Hc _]. auto.
  - intros (Hu & Hxy & H). exists (cty x). split; [|exact H].
    apply known_of_In. split; [exact Hu|].
    apply combinations2_In in H as [H _]. apply sel_In in H as [H _]. eauto.
Qed.

Lemma paired_NoDup (rows : list X) : NoDup rows -> NoDup (paired cty rows).
Proof.
  intros Hnd. unfold paired. apply NoDup_app.
  - unfold cross_pairs.
    apply (flat_map_NoDup _ (fun p => (cty (fst p), cty (snd p)))).
    + apply combinations2_NoDup, known_of_NoDup.
    + intros cc _. apply list_prod_NoDup; apply NoDup_filter; exact Hnd.
    + intros [c1 c2] [x y] _ H. simpl in *.
      apply in_prod_iff in H as [Hx Hy].
      apply sel_In in Hx as [_ <-]. apply sel_In in Hy as [_ <-]. reflexivity.
  - unfold within_pairs.
    apply (flat_map_NoDup _ (fun p => cty (fst p))).
    + apply known_of_NoDup.
    + intros c _. apply combinations2_NoDup, NoDup_filter, Hnd.
    + intros c [x y] _ H. simpl.
      apply combinations2_In in H as [Hx _]. now apply sel_In in Hx as [_ <-].
  - intros [x y] Hc Hw.
    apply cross_pairs_In in Hc as (_ & _ & Hc).
    apply within_pairs_In in Hw as (_ & Hxy & _).
    apply (combinations2_asym _ _ _ (known_of_NoDup rows)) in Hc as [Hc _].
    contradiction.
Qed.

(** A pair of rows is behind a task only if the rows are two different
    rows of known country, and then the reversed pair is not. *)
Lemma paired_sound (rows : list X) (x y : X) :
  NoDup rows -> In (x, y) (paired cty rows) ->
  In x rows /\ In y rows /\ x <> y
  /\ cty x <> Unknown /\ cty y <> Unknown
  /\ ~ In (y, x) (paired cty rows).
Proof.
  intros Hnd H. unfold paired in *. rewrite in_app_iff in *.
  destruct H as [H|H].
  - apply cross_pairs_In in H as (Hx & Hy & Hcc).
    destruct (combinations2_In _ _ _ Hcc) as [Kx Ky].
    apply known_of_In in Kx as [Kx _]. apply known_of_In in Ky as [Ky _].
    destruct (combinations2_asym _ _ _ (known_of_NoDup rows) Hcc) as [Hne Hrev].
    repeat split; auto; [congruence|].
    intros [H|H].
    + apply cross_pairs_In in H as (_ & _ & H). contradiction.
    + apply within_pairs_In in H as (_ & H & _). congruence.
  - apply within_pairs_In in H as (Hu & Hxy & H).
    assert (Hs : NoDup (sel cty rows (cty x))) by (apply NoDup_filter, Hnd).
    destruct (combinations2_asym _ _ _ Hs H) as [Hne Hrev].
    destruct (combinations2_In _ _ _ H) as [Hx Hy].
    apply sel_In in Hx as [Hx _]. apply sel_In in Hy as [Hy _].
    repeat split; auto; [congruence|].
    intros [H'|H'].
    + apply cross_pairs_In in H' as (_ & _ & H').
      apply (combinations2_asym _ _ _ (known_of_NoDup rows)) in H' as [H' _]. congruence.
    + apply within_pairs_In in H' as (_ & _ & H'). rewrite <- Hxy in H'. contradiction.
Qed.

(** Two different rows of known country are behind a task, in one order
    or the other. *)
Lemma paired_complete (rows : list X) (x y : X) :
  In x rows -> In y rows -> x <> y ->
  cty x <> Unknown -> cty y <> Unknown ->
  In (x, y) (paired cty rows) \/ In (y, x) (paired cty rows).
Proof.
  intros Hx Hy Hne Kx Ky. unfold paired. rewrite !in_app_iff.
  destruct (String.string_dec (cty x) (cty y)) as [E|E].
  - assert (H : In (x, y) (combinations2 (sel cty rows (cty x)))
                \/ In (y, x) (combinations2 (sel cty rows (cty x)))).
    { apply combinations2_total; [apply sel_In | apply sel_In | exact Hne]; auto. }
    destruct H as [H|H]; [left | right]; right; apply within_pairs_In; auto.
    rewrite <- E. auto.
  - assert (H : In (cty x, cty y) (combinations2 (known_of cty rows))
                \/ In (cty y, cty x) (combinations2 (known_of cty rows))).
    { apply combinations2_total; [apply known_of_In | apply known_of_In | exact E]; eauto. }
    destruct H as [H|H]; [left | right]; left; apply cross_pairs_In; auto.
Qed.

End Pairing.

Lemma sel_map {X Y : Type} (cty : Y -> string) (f : X -> Y) (rows : list X) (c : string) :
  sel cty (map f rows) c = map f (sel (fun x => cty (f x)) rows c).
Proof. unfold sel. apply filter_map_comm. Qed.

Lemma known_of_map {X Y : Type} (cty : Y -> string) (f : X -> Y) (rows : list X) :
  known_of cty (map f rows) = known_of (fun x => cty (f x)) rows.
Proof. unfold known_of. now rewrite map_map. Qed.

(** The generator commutes with a relabelling of the rows. *)
Lemma paired_map {X Y : Type} (cty : Y -> string) (f : X -> Y) (rows : list X) :
  paired cty (map f rows)
  = map (fun p => (f (fst p), f (snd p))) (paired (fun x => cty (f x)) rows).
Proof.
  unfold paired, cross_pairs, within_pairs.
  rewrite map_app, known_of_map, <- !flat_map_map. f_equal.
  - apply flat_map_ext. intros cc. now rewrite !sel_map, list_prod_map.
  - apply flat_map_ext. intros c. now rewrite sel_map, combinations2_map.
Qed.

Lemma product_tasks (g : string -> string -> task) (S1 S2 : list record) :
  flat_map (fun a => map (fun b => g a b) (map seq S2)) (map seq S1)
  = map (fun p => g (seq (fst p)) (seq (snd p))) (list_prod S1 S2).
Proof.
  induction S1 as [|x t IH]; simpl; [reflexivity|].
  now rewrite map_app, !map_map, IH.
Qed.

Lemma gen_tasks_paired (args : Args) (df : list record) :
  gen_tasks args df = map (task_of args) (paired country df).
Proof.
  unfold gen_tasks, paired. rewrite map_app. f_equal.
  - unfold cross_tasks, cross_pairs. rewrite <- flat_map_map.
    apply flat_map_ext. intros [c1 c2]. simpl fst; simpl snd.
    unfold seqs_of. fold (sel country df c1). fold (sel country df c2).
    rewrite (product_tasks (fun a b => mk_task args a b c1 c2)).
    apply map_ext_in. intros [x y] H. apply in_prod_iff in H as [Hx Hy].
    apply sel_In in Hx as [_ Hx]. apply sel_In in Hy as [_ Hy].
    unfold task_of. simpl. now rewrite Hx, Hy.
  - unfold within_tasks, within_pairs. rewrite <- flat_map_map.
    apply flat_map_ext. intros c.
    unfold seqs_of. fold (sel country df c).
    rewrite combinations2_map, map_map.
    apply map_ext_in. intros [x y] H.
    destruct (combinations2_In _ _ _ H) as [Hx Hy].
    apply sel_In in Hx as [_ Hx]. apply sel_In in Hy as [_ Hy].
    unfold task_of. simpl. now rewrite Hx, Hy.
Qed.

(** *** Counting *)

Lemma filter_none {A : Type} (p : A -> bool) (l : list A) :
  (forall x, In x l -> p x = false) -> filter p l = [].
Proof.
  induction l as [|x t IH]; simpl; intros H; [reflexivity|].
  rewrite (H x) by auto. apply IH. auto.
Qed.

Lemma filter_all {A : Type} (p : A -> bool) (l : list A) :
  (forall x, In x l -> p x = true) -> filter p l = l.
Proof.
  induction l as [|x t IH]; simpl; intros H; [reflexivity|].
  rewrite (H x) by auto. f_equal. apply IH. auto.
Qed.

Lemma filter_flat_map_length {A B : Type} (p : B -> bool) (f : A -> list B) (l : list A) :
  List.length (filter p (flat_map f l))
  = list_sum (map (fun a => List.length (filter p (f a))) l).
Proof.
  induction l as [|x t IH]; simpl; [reflexivity|].
  now rewrite filter_app, length_app, IH.
Qed.

Lemma sum_all_zero {K : Type} (g : K -> nat) (l : list K) :
  (forall c, In c l -> g c = 0) -> list_sum (map g l) = 0.
Proof.
  induction l as [|x t IH]; simpl; intros H; [reflexivity|].
  rewrite (H x) by auto. apply IH. auto.
Qed.

(** A sum over a duplicate-free list to which one key only contributes. *)
Lemma sum_single {K : Type} (g : K -> nat) (k : K) (l : list K) :
  NoDup l -> In k l ->
  (forall c, In c l -> c <> k -> g c = 0) ->
  list_sum (map g l) = g k.
Proof.
  induction 1 as [|x t Hx Hnd IH]; simpl; intros Hin H; [contradiction|].
  destruct Hin as [->|Hin].
  - rewrite sum_all_zero; [lia|].
    intros c Hc. apply H; [auto | congruence].
  - rewrite (H x); [|auto|congruence].
    apply IH; auto.
Qed.

Lemma key_dec (k k' : string * string) : {k = k'} + {k <> k'}.
Proof. decide equality; apply String.string_dec. Qed.

Section Counting.

Context {X : Type} (cty : X -> string).

Lemma labelled_true (a b : string) (p : X * X) :
  labelled cty a b p = true <-> cty (fst p) = a /\ cty (snd p) = b.
Proof. unfold labelled. now rewrite andb_true_iff, !String.eqb_eq. Qed.

Lemma labelled_false (a b : string) (p : X * X) :
  cty (fst p) <> a \/ cty (snd p) <> b -> labelled cty a b p = false.
Proof.
  intros H. destruct (labelled cty a b p) eqn:E; [|reflexivity].
  apply labelled_true in E. tauto.
Qed.

Lemma paired_known (rows : list X) (x y : X) :
  In (x, y) (paired cty rows) -> cty x <> Unknown /\ cty y <> Unknown.
Proof.
  unfold paired. rewrite in_app_iff. intros [H|H].
  - apply cross_pairs_In in H as (_ & _ & H).
    apply combinations2_In in H as [Hx Hy].
    apply known_of_In in Hx as [Hx _]. apply known_of_In in Hy as [Hy _]. auto.
  - apply within_pairs_In in H as (Hx & E & _). split; congruence.
Qed.

Lemma sel_absent (rows : list X) (c : string) :
  c <> Unknown -> ~ In c (known_of cty rows) -> sel cty rows c = [].
Proof.
  intros Hc Hn. unfold sel. apply filter_none. intros x Hx.
  apply String.eqb_neq. intros E. apply Hn, known_of_In. eauto.
Qed.

Lemma count_block_cross (rows : list X) (a b : string) (cc : string * string) :
  List.length (filter (labelled cty a b)
                 (list_prod (sel cty rows (fst cc)) (sel cty rows (snd cc))))
  = if key_dec cc (a, b)
    then List.length (sel cty rows a) * List.length (sel cty rows b)
    else 0.
Proof.
  destruct (key_dec cc (a, b)) as [->|Hn]; simpl.
  - rewrite filter_all; [apply length_prod|].
    intros [x y] H. apply in_prod_iff in H as [Hx Hy].
    apply sel_In in Hx as [_ Hx]. apply sel_In in Hy as [_ Hy].
    apply labelled_true. auto.
  - rewrite filter_none; [reflexivity|].
    intros [x y] H. apply in_prod_iff in H as [Hx Hy].
    apply sel_In in Hx as [_ Hx]. apply sel_In in Hy as [_ Hy].
    apply labelled_false. simpl.
    destruct cc as [c1 c2]. simpl in *.
    destruct (String.string_dec c1 a) as [->|]; [|left; congruence].
    right. intros E. apply Hn. congruence.
Qed.

Lemma count_cross_one (rows : list X) (a b : string) :
  count_pairs cty a b (cross_pairs cty rows)
  = if in_dec key_dec (a, b) (combinations2 (known_of cty rows))
    then List.length (sel cty rows a) * List.length (sel cty rows b)
    else 0.
Proof.
  unfold count_pairs, cross_pairs. rewrite filter_flat_map_length.
  destruct (in_dec key_dec (a, b) (combinations2 (known_of cty rows))) as [Hin|Hn].
  - rewrite (sum_single _ (a, b)).
    + rewrite count_block_cross. destruct (key_dec (a, b) (a, b)); [reflexivity | congruence].
    + apply combinations2_NoDup, known_of_NoDup.
    + exact Hin.
    + intros cc _ Hcc. rewrite count_block_cross.
      destruct (key_dec cc (a, b)); [contradiction | reflexivity].
  - apply sum_all_zero. intros cc Hcc. rewrite count_block_cross.
    destruct (key_dec cc (a, b)); [congruence | reflexivity].
Qed.

(** Between two different known countries: one task per pair of rows. *)
Lemma count_cross (rows : list X) (a b : string) :
  a <> b -> a <> Unknown -> b <> Unknown ->
  count_pairs cty a b (cross_pairs cty rows) + count_pairs cty b a (cross_pairs cty rows)
  = List.length (sel cty rows a) * List.length (sel cty rows b).
Proof.
  intros Hab Ha Hb. rewrite !count_cross_one.
  pose proof (known_of_NoDup cty rows) as Hnd.
  destruct (in_dec key_dec (a, b) _) as [H1|H1], (in_dec key_dec (b, a) _) as [H2|H2].
  - apply (combinations2_asym _ _ _ Hnd) in H1 as [_ H1]. contradiction.
  - lia.
  - lia.
  - destruct (in_dec String.string_dec a (known_of cty rows)) as [Ka|Ka].
    + destruct (in_dec String.string_dec b (known_of cty rows)) as [Kb|Kb].
      * destruct (combinations2_total _ _ _ Ka Kb Hab); contradiction.
      * rewrite (sel_absent rows b Hb Kb). simpl. lia.
    + rewrite (sel_absent rows a Ha Ka). reflexivity.
Qed.

Lemma count_cross_same (rows : list X) (a : string) :
  count_pairs cty a a (cross_pairs cty rows) = 0.
Proof.
  unfold count_pairs. rewrite filter_none; [reflexivity|].
  intros [x y] H. apply cross_pairs_In in H as (_ & _ & H).
  apply (combinations2_asym _ _ _ (known_of_NoDup cty rows)) in H as [H _].
  apply labelled_false. simpl.
  destruct (String.string_dec (cty x) a) as [E|]; [|auto].
  right. congruence.
Qed.

Lemma count_within_diff (rows : list X) (a b : string) :
  a <> b -> count_pairs cty a b (within_pairs cty rows) = 0.
Proof.
  intros Hab. unfold count_pairs. rewrite filter_none; [reflexivity|].
  intros [x y] H. apply within_pairs_In in H as (_ & E & _).
  apply labelled_false. simpl.
  destruct (String.string_dec (cty x) a) as [E'|]; [|auto].
  right. congruence.
Qed.

Lemma count_block_within (rows : list X) (a c : string) :
  List.length (filter (labelled cty a a) (combinations2 (sel cty rows c)))
  = if String.string_dec c a then List.length (combinations2 (sel cty rows a)) else 0.
Proof.
  destruct (String.string_dec c a) as [->|Hn].
  - rewrite filter_all; [reflexivity|].
    intros [x y] H. destruct (combinations2_In _ _ _ H) as [Hx Hy].
    apply sel_In in Hx as [_ Hx]. apply sel_In in Hy as [_ Hy].
    apply labelled_true. auto.
  - rewrite filter_none; [reflexivity|].
    intros [x y] H. apply combinations2_In in H as [Hx _].
    apply sel_In in Hx as [_ Hx]. apply labelled_false. left. simpl. congruence.
Qed.

(** Within one known country: one task per pair of two of its rows. *)
Lemma count_within (rows : list X) (a : string) :
  a <> Unknown ->
  count_pairs cty a a (within_pairs cty rows)
  = List.length (combinations2 (sel cty rows a)).
Proof.
  intros Ha. unfold count_pairs, within_pairs. rewrite filter_flat_map_length.
  destruct (in_dec String.string_dec a (known_of cty rows)) as [Ka|Ka].
  - rewrite (sum_single _ a).
    + rewrite count_block_within. destruct (String.string_dec a a); [reflexivity | congruence].
    + apply known_of_NoDup.
    + exact Ka.
    + intros c _ Hc. rewrite count_block_within.
      destruct (String.string_dec c a); [contradiction | reflexivity].
  - rewrite (sel_absent rows a Ha Ka). simpl.
    apply sum_all_zero. intros c Hc. rewrite count_block_within.
    destruct (String.string_dec c a); [congruence | reflexivity].
Qed.

Lemma count_paired (rows : list X) (a b : string) :
  count_pairs cty a b (paired cty rows)
  = count_pairs cty a b (cross_pairs cty rows) + count_pairs cty a b (within_pairs cty rows).
Proof. unfold count_pairs, paired. now rewrite filter_app, length_app. Qed.

Lemma count_unknown (rows : list X) (a b : string) :
  a = Unknown \/ b = Unknown -> count_pairs cty a b (paired cty rows) = 0.
Proof.
  intros H. unfold count_pairs. rewrite filter_none; [reflexivity|].
  intros [x y] Hin. apply paired_known in Hin as [Hx Hy].
  apply labelled_false. simpl. destruct H as [->| ->]; auto.
Qed.

End Counting.

(** *** The task list *)

Lemma map_row_at (df : list record) :
  map (row_at df) (List.seq 0 (List.length df)) = df.
Proof.
  unfold row_at. induction df as [|r t IH]; simpl; [reflexivity|].
  f_equal. rewrite <- seq_shift, map_map. exact IH.
Qed.

Lemma count_label_paired (args : Args) (df : list record) (a b : string) :
  count_label a b (gen_tasks args df) = count_pairs country a b (paired country df).
Proof.
  rewrite gen_tasks_paired. unfold count_label, count_pairs.
  rewrite filter_map_comm, length_map. reflexivity.
Qed.

Lemma n_seqs_sel (df : list record) (c : string) :
  n_seqs df c = List.length (sel country df c).
Proof. unfold n_seqs, seqs_of. apply length_map. Qed.

Lemma paired_length {X : Type} (cty : X -> string) (rows : list X) :
  List.length (paired cty rows)
  = list_sum (map (fun cc => List.length (sel cty rows (fst cc)) * List.length (sel cty rows (snd cc)))
                  (combinations2 (known_of cty rows)))
    + list_sum (map (fun c => List.length (combinations2 (sel cty rows c)))
                    (known_of cty rows)).
Proof.
  unfold paired, cross_pairs, within_pairs.
  rewrite length_app, !length_flat_map. f_equal.
  f_equal. apply map_ext. intros cc. apply length_prod.
Qed.

(** C1. The task list is the image of a duplicate-free list of pairs of
    positions of [df]: each such pair is made of two different positions
    whose countries are known, never comes with its reverse, and every two
    different positions of known country are paired in one order or the
    other.  Counted by label: two different known countries share as many
    tasks as the product of their numbers of records, a known country has
    n(n-1)/2 tasks with itself, and no task is labelled ["Unknown"].  With
    2, 3 and 1 records in three countries there are 6, 2 and 3 cross
    tasks, 1, 3 and 0 within tasks, and 15 tasks in all. *)
Theorem gen_tasks_pairs (args : Args) (df : list record) :
  let ts := gen_tasks args df in
  (exists prov : list (nat * nat),
      ts = map (task_at args df) prov
      /\ NoDup prov
      /\ (forall i j,
             In (i, j) prov ->
             i < List.length df /\ j < List.length df /\ i <> j
             /\ country (row_at df i) <> Unknown /\ country (row_at df j) <> Unknown
             /\ ~ In (j, i) prov)
      /\ (forall i j,
             i < List.length df -> j < List.length df -> i <> j ->
             country (row_at df i) <> Unknown -> country (row_at df j) <> Unknown ->
             In (i, j) prov \/ In (j, i) prov))
  /\ (forall c1 c2,
         c1 <> c2 -> c1 <> Unknown -> c2 <> Unknown ->
         count_label c1 c2 ts + count_label c2 c1 ts = n_seqs df c1 * n_seqs df c2)
  /\ (forall c,
         c <> Unknown -> count_label c c ts = n_seqs df c * (n_seqs df c - 1) / 2)
  /\ (forall c, count_label Unknown c ts = 0 /\ count_label c Unknown ts = 0)
  /\ (forall a b c,
         known_countries df = [a; b; c] ->
         n_seqs df a = 2 -> n_seqs df b = 3 -> n_seqs df c = 1 ->
         count_label a b ts + count_label b a ts = 6
         /\ count_label a c ts + count_label c a ts = 2
         /\ count_label b c ts + count_label c b ts = 3
         /\ count_label a a ts = 1 /\ count_label b b ts = 3 /\ count_label c c ts = 0
         /\ List.length ts = 15)
  /\ (known_countries example_df = ["A"; "B"; "C"]
      /\ n_seqs example_df "A" = 2 /\ n_seqs example_df "B" = 3
      /\ n_seqs example_df "C" = 1 /\ n_seqs example_df Unknown = 1
      /\ List.length (gen_tasks args example_df) = 15).
Proof.
  intros ts.
  assert (Hcross : forall c1 c2,
             c1 <> c2 -> c1 <> Unknown -> c2 <> Unknown ->
             count_label c1 c2 ts + count_label c2 c1 ts = n_seqs df c1 * n_seqs df c2).
  { intros c1 c2 H12 H1 H2. unfold ts.
    rewrite !count_label_paired, !count_paired, !n_seqs_sel.
    rewrite !count_within_diff by congruence.
    rewrite <- (count_cross country df c1 c2 H12 H1 H2). lia. }
  assert (Hwithin2 : forall c,
             c <> Unknown -> 2 * count_label c c ts = n_seqs df c * (n_seqs df c - 1)).
  { intros c Hc. unfold ts.
    rewrite count_label_paired, count_paired, n_seqs_sel.
    rewrite count_cross_same, (count_within country df c Hc). simpl Nat.add.
    apply combinations2_length. }
  assert (Hwithin : forall c,
             c <> Unknown -> count_label c c ts = n_seqs df c * (n_seqs df c - 1) / 2).
  { intros c Hc. rewrite <- (Hwithin2 c Hc).
    rewrite Nat.mul_comm, Nat.div_mul; [reflexivity | discriminate]. }
  split; [|split; [exact Hcross | split; [exact Hwithin | split; [|split]]]].
  - set (cty := fun i => country (row_at df i)).
    set (rows := List.seq 0 (List.length df)).
    assert (Hrows : NoDup rows) by apply seq_NoDup.
    assert (Hin : forall i, In i rows <-> i < List.length df).
    { intros i. unfold rows. rewrite in_seq. lia. }
    exists (paired cty rows). split; [|split; [|split]].
    + unfold ts. rewrite gen_tasks_paired.
      rewrite <- (map_row_at df) at 1. fold rows.
      rewrite (paired_map country (row_at df) rows), map_map. reflexivity.
    + apply paired_NoDup, Hrows.
    + intros i j H.
      destruct (paired_sound cty rows i j Hrows H) as (Hi & Hj & Hne & Ki & Kj & Hrev).
      rewrite Hin in Hi, Hj. auto 10.
    + intros i j Hi Hj Hne Ki Kj.
      apply (paired_complete cty rows i j); auto; apply Hin; assumption.
  - intros c. unfold ts. rewrite !count_label_paired.
    split; apply count_unknown; auto.
  - intros a b c HK Ha Hb Hc.
    assert (Hnd : NoDup [a; b; c]) by (rewrite <- HK; apply (known_of_NoDup country)).
    assert (Hk : forall x, In x [a; b; c] -> x <> Unknown).
    { intros x Hx. rewrite <- HK in Hx.
      apply (known_of_In country) in Hx as [Hx _]. exact Hx. }
    assert (Hab : a <> b /\ a <> c /\ b <> c).
    { inversion Hnd as [|? ? Hna Hnd']; subst. inversion Hnd' as [|? ? Hnb _]; subst.
      simpl in *. intuition congruence. }
    destruct Hab as (Hab & Hac & Hbc).
    assert (Ka : a <> Unknown) by (apply Hk; simpl; auto).
    assert (Kb : b <> Unknown) by (apply Hk; simpl; auto).
    assert (Kc : c <> Unknown) by (apply Hk; simpl; auto).
    rewrite (Hcross a b), (Hcross a c), (Hcross b c) by assumption.
    rewrite !Hwithin by assumption. rewrite Ha, Hb, Hc.
    repeat split; try reflexivity.
    unfold ts. rewrite gen_tasks_paired, length_map, paired_length.
    change (known_of country df) with (known_countries df). rewrite HK.
    cbn [combinations2 map app list_sum fst snd].
    rewrite <- !n_seqs_sel, Ha, Hb, Hc.
    pose proof (combinations2_length (sel country df a)) as La.
    pose proof (combinations2_length (sel country df b)) as Lb.
    pose proof (combinations2_length (sel country df c)) as Lc.
    rewrite <- !n_seqs_sel in La, Lb, Lc.
    rewrite Ha in La. rewrite Hb in Lb. rewrite Hc in Lc.
    unfold list_sum. simpl fold_right. lia.
  - repeat split; reflexivity.
Qed.

(** *** Two runs on a small input *)

Example main_run_all_fail :
  main small_catalog always_fails example_args example_fasta initial_world
  = (mkWorld [ (INFO, CountriesDetected); (INFO, CountryCount "Malaysia" 2);
               (INFO, CountryCount Unknown 1); (INFO, TotalTasks 1);
               (ERROR, ZeroUsableResults) ]
             [],
     Exit 1%Z).
Proof. vm_compute. reflexivity. Qed.

Example main_run_writes :
  main small_catalog always_answers example_args example_fasta initial_world
  = (mkWorld [ (INFO, CountriesDetected); (INFO, CountryCount "Malaysia" 2);
               (INFO, CountryCount Unknown 1); (INFO, TotalTasks 1);
               (INFO, SummaryWritten "dnds_output.csv") ]
             [ (OutputCsv "dnds_output.csv",
                Csv [ mkRow "Malaysia" "Malaysia" "Asia" "Asia"
                            0.2%float 0.1%float 2%float 1 (Some "VP1") None None ]) ],
     Ret tt).
Proof. vm_compute. reflexivity. Qed.

(* ================================================================== *)
(** * Further properties of the code *)
(* ================================================================== *)

(** ** The header parser *)

Lemma fold_slash_raw (parts : list string) (rc : option string) (y : option Z) :
  fst (fold_left slash_step parts (rc, y)) = rc.
Proof.
  revert y; induction parts as [|p t IH]; intros y; simpl; [reflexivity|].
  destruct (PyStr.isdigit p); apply IH.
Qed.

(** A header with neither a pipe nor a slash gives ["Unknown"] three
    times, whatever the catalog. *)
Theorem parse_header_no_separator (env : Catalog) (header : string) :
  PyStr.contains "|" (PyStr.strip (PyStr.remove_char ">" header)) = false ->
  PyStr.contains "/" (PyStr.strip (PyStr.remove_char ">" header)) = false ->
  parse_header env header = (Unknown, Unknown, YearUnknown).
Proof.
  intros H1 H2. unfold parse_header. rewrite H1, H2. reflexivity.
Qed.

Lemma parse_header_no_separator_witness :
  parse_header small_catalog ">AB012345 Sarawak 2015" = (Unknown, Unknown, YearUnknown).
Proof.
  apply (parse_header_no_separator small_catalog); reflexivity.
Defined.

(** A header with a slash and no pipe is given the country of the token
    ["Malaysia"], whatever stands between its slashes. *)
Theorem parse_header_slash_country (env : Catalog) (header : string) :
  PyStr.contains "|" (PyStr.strip (PyStr.remove_char ">" header)) = false ->
  PyStr.contains "/" (PyStr.strip (PyStr.remove_char ">" header)) = true ->
  fst (parse_header env header)
  = ("Malaysia", catalog_resolve env "Malaysia").
Proof.
  intros H1 H2. unfold parse_header. rewrite H1, H2.
  destruct (fold_left slash_step _ _) as [rc y] eqn:E.
  pose proof (fold_slash_raw (PyStr.split "/" (PyStr.strip (PyStr.remove_char ">" header)))
                (Some "Malaysia") None) as Hrc.
  rewrite E in Hrc. simpl in Hrc. subst rc. reflexivity.
Qed.

Lemma parse_header_slash_country_witness :
  fst (parse_header small_catalog ">Thailand/Bangkok/07/x")
  = ("Malaysia", catalog_resolve small_catalog "Malaysia").
Proof.
  apply (parse_header_slash_country small_catalog); reflexivity.
Defined.

Lemma digit_val_range (c : ascii) :
  PyStr.is_digit c = true -> (0 <= PyStr.digit_val c <= 9)%Z.
Proof.
  unfold PyStr.is_digit, PyStr.digit_val. intros H.
  apply andb_prop in H as [H1 H2].
  apply Nat.leb_le in H1. apply Nat.leb_le in H2.
  rewrite Nat2Z.inj_sub by exact H1. lia.
Qed.

Lemma int_acc_nonneg (s : string) (acc : Z) :
  (0 <= acc)%Z -> (0 <= PyStr.int_acc acc s)%Z.
Proof.
  revert acc; induction s as [|c s IH]; intros acc H; cbn [PyStr.int_acc]; [exact H|].
  apply IH. unfold PyStr.digit_val. lia.
Qed.

Lemma year_fullmatch_range (part : string) :
  year_fullmatch part = true -> (1900 <= PyStr.int part <= 2099)%Z.
Proof.
  destruct part as [|a [|b [|c [|d [|e r]]]]]; try discriminate.
  unfold year_fullmatch. intros H.
  apply andb_prop in H as [H Hd]. apply andb_prop in H as [H Hc].
  pose proof (digit_val_range c Hc). pose proof (digit_val_range d Hd).
  unfold PyStr.int. cbn [PyStr.int_acc].
  apply orb_prop in H as [H|H]; apply andb_prop in H as [Ha Hb];
    apply Ascii.eqb_eq in Ha, Hb; subst a b.
  - change (PyStr.digit_val "1") with 1%Z. change (PyStr.digit_val "9") with 9%Z. lia.
  - change (PyStr.digit_val "2") with 2%Z. change (PyStr.digit_val "0") with 0%Z. lia.
Qed.

Lemma fold_pipe_year (parts : list string) (rc : option string) (y : option Z) :
  year_in_range y -> year_in_range (snd (fold_left pipe_step parts (rc, y))).
Proof.
  revert rc y; induction parts as [|p t IH]; intros rc y H; simpl; [exact H|].
  destruct (year_fullmatch p) eqn:E.
  - apply IH. simpl. now apply year_fullmatch_range.
  - destruct (PyStr.isalpha p || PyStr.contains "_" p); apply IH; exact H.
Qed.

Lemma slash_step_year (st : option string * option Z) (p : string) :
  year_nonneg (snd st) -> year_nonneg (snd (slash_step st p)).
Proof.
  destruct st as [rc y]. unfold slash_step. intros H.
  destruct (PyStr.isdigit p); cbn [snd]; [|exact H].
  pose proof (int_acc_nonneg p 0 ltac:(lia)) as Hp. fold (PyStr.int p) in Hp.
  cbv beta iota delta [year_nonneg].
  destruct (String.length p =? 2); lia.
Qed.

Lemma fold_slash_year (parts : list string) (st : option string * option Z) :
  year_nonneg (snd st) -> year_nonneg (snd (fold_left slash_step parts st)).
Proof.
  revert st; induction parts as [|p t IH]; intros st H; [exact H|].
  cbn [fold_left]. apply IH, slash_step_year, H.
Qed.

(** The year of a header is ["Unknown"] or a positive integer (a year 0
    read between slashes is reported as ["Unknown"]), and a year read
    between pipes lies between 1900 and 2099. *)
Theorem parse_header_year (env : Catalog) (header : string) :
  match snd (parse_header env header) with
  | YearUnknown => True
  | Year y =>
      (0 < y)%Z
      /\ (PyStr.contains "|" (PyStr.strip (PyStr.remove_char ">" header)) = true ->
          (1900 <= y <= 2099)%Z)
  end.
Proof.
  unfold parse_header.
  set (h := PyStr.strip (PyStr.remove_char ">" header)).
  destruct (PyStr.contains "|" h) eqn:Epipe.
  - pose proof (fold_pipe_year (PyStr.split "|" h) None None I) as Hy.
    destruct (fold_left pipe_step _ _) as [rc [y|]]; simpl in *; [|exact I].
    destruct (y =? 0)%Z eqn:E0; [exact I|]. split; [lia | intros _; exact Hy].
  - destruct (PyStr.contains "/" h).
    + pose proof (fold_slash_year (PyStr.split "/" h) (Some "Malaysia", None) I) as Hy.
      destruct (fold_left slash_step _ _) as [rc [y|]]; simpl in *; [|exact I].
      destruct (y =? 0)%Z eqn:E0; [exact I|].
      apply Z.eqb_neq in E0. split; [lia | discriminate].
    + simpl. exact I.
Qed.

Lemma first_split_clean (sep : ascii) (s : string) :
  PyStr.contains sep (PyStr.first (PyStr.split sep s)) = false.
Proof.
  induction s as [|c s IH]; [reflexivity|].
  cbn [PyStr.split]. destruct (Ascii.eqb c sep) eqn:E; [reflexivity|].
  unfold PyStr.first in *. destruct (PyStr.split sep s) as [|h r]; simpl.
  - now rewrite E.
  - simpl in IH. now rewrite E, IH.
Qed.

Lemma first_split_prefix (sep : ascii) (s : string) :
  PyStr.contains sep s = true ->
  exists rest, s = (PyStr.first (PyStr.split sep s) ++ String sep rest)%string.
Proof.
  induction s as [|c s IH]; [discriminate|].
  cbn [PyStr.split PyStr.contains]. destruct (Ascii.eqb c sep) eqn:E.
  - intros _. apply Ascii.eqb_eq in E. subst c. exists s. reflexivity.
  - simpl. intros H. destruct (IH H) as [rest Hr]. exists rest.
    unfold PyStr.first in *. destruct (PyStr.split sep s) as [|h r]; simpl in *.
    + now rewrite Hr at 1.
    + now rewrite Hr at 1.
Qed.

(** The subgenotype of a header with a hash sign is the text before the
    first hash sign: it has no hash sign and the header continues it with
    one; without a hash sign the subgenotype is ["Unknown"]. *)
Theorem extract_subgenotype_prefix (header : string) :
  (PyStr.contains "#" header = true ->
   PyStr.contains "#" (extract_subgenotype header) = false
   /\ exists rest, header = (extract_subgenotype header ++ String "#" rest)%string)
  /\ (PyStr.contains "#" header = false -> extract_subgenotype header = Unknown).
Proof.
  unfold extract_subgenotype. split; intros H; rewrite H.
  - split; [apply first_split_clean | now apply first_split_prefix].
  - reflexivity.
Qed.

(** ** Camel-case splitting and the normalization of tokens *)

Lemma upper_not_blank (c : ascii) : PyStr.is_upper c = true -> Ascii.eqb c " " = false.
Proof.
  intros H. apply Ascii.eqb_neq. intros ->. discriminate H.
Qed.

Lemma camel_tail_blank_free (s : string) :
  blank_free (camel_tail s) = blank_free s.
Proof.
  unfold blank_free. induction s as [|c s IH]; [reflexivity|].
  cbn [camel_tail]. destruct (PyStr.is_upper c) eqn:E.
  - cbn [PyStr.remove_char]. rewrite (upper_not_blank c E), IH.
    change (Ascii.eqb " " " ") with true. reflexivity.
  - cbn [PyStr.remove_char]. now rewrite IH.
Qed.

Lemma camel_tail_length (s : string) :
  String.length s <= String.length (camel_tail s).
Proof.
  induction s as [|c s IH]; [apply Nat.le_refl|].
  cbn [camel_tail]. destruct (PyStr.is_upper c); simpl; lia.
Qed.

Lemma camel_tail_fixed (s : string) :
  camel_tail s = s <-> PyStr.all_chars (fun c => negb (PyStr.is_upper c)) s = true.
Proof.
  induction s as [|c s IH]; [simpl; tauto|].
  cbn [camel_tail PyStr.all_chars]. destruct (PyStr.is_upper c) eqn:E; simpl.
  - split; [|discriminate]. intros H.
    apply (f_equal String.length) in H. simpl in H.
    pose proof (camel_tail_length s). lia.
  - rewrite <- IH. split; [intros [= H]; exact H | intros ->; reflexivity].
Qed.

(** Camel-case splitting only inserts blanks, and it leaves a token as it
    is exactly when no capital letter follows its first character. *)
Theorem split_camel_case_blanks (s : string) :
  blank_free (split_camel_case s) = blank_free s
  /\ String.length s <= String.length (split_camel_case s)
  /\ (split_camel_case s = s
      <-> match s with
          | EmptyString => True
          | String _ t => PyStr.all_chars (fun c => negb (PyStr.is_upper c)) t = true
          end).
Proof.
  destruct s as [|c t]; [repeat split; auto|].
  cbn [split_camel_case]. split; [|split].
  - unfold blank_free. cbn [PyStr.remove_char].
    pose proof (camel_tail_blank_free t) as H. unfold blank_free in H.
    now rewrite H.
  - simpl. pose proof (camel_tail_length t). lia.
  - rewrite <- camel_tail_fixed. split; [intros [= H]; exact H | intros ->; reflexivity].
Qed.

Lemma first_split_app (sep : ascii) (tok rest : string) :
  PyStr.contains sep tok = false ->
  PyStr.first (PyStr.split sep (tok ++ String sep rest)) = tok.
Proof.
  induction tok as [|c tok IH]; simpl.
  - intros _. now rewrite Ascii.eqb_refl.
  - intros H. apply orb_false_elim in H as [Hc Ht]. rewrite Hc.
    specialize (IH Ht). unfold PyStr.first in *.
    destruct (PyStr.split sep (tok ++ String sep rest)) as [|h r]; simpl in *; now subst.
Qed.

Lemma first_split_app_other (sep : ascii) (tok t : string) :
  PyStr.contains sep tok = false ->
  PyStr.first (PyStr.split sep (tok ++ t)) = (tok ++ PyStr.first (PyStr.split sep t))%string.
Proof.
  induction tok as [|c tok IH]; simpl; [reflexivity|].
  intros H. apply orb_false_elim in H as [Hc Ht]. rewrite Hc.
  specialize (IH Ht). unfold PyStr.first in *.
  destruct (PyStr.split sep (tok ++ t)) as [|h r]; simpl in *; now rewrite <- IH.
Qed.

Lemma lower_keeps_char (x : ascii) (s : string) :
  PyStr.is_upper x = false -> PyStr.is_lower x = false ->
  PyStr.contains x (PyStr.lower s) = PyStr.contains x s.
Proof.
  intros Hu Hl. induction s as [|c s IH]; [reflexivity|].
  unfold PyStr.lower in *. cbn [PyStr.map_chars PyStr.contains]. rewrite IH. f_equal.
  unfold PyStr.to_lower. destruct (PyStr.is_upper c) eqn:E; [|reflexivity].
  destruct (Ascii.eqb_spec c x) as [->|Hn]; [congruence|].
  apply Ascii.eqb_neq. intros Hx.
  assert (Hlow : PyStr.is_lower (ascii_of_nat (PyStr.code c + 32)) = true).
  { unfold PyStr.is_upper in E. apply andb_prop in E as [E1 E2].
    apply Nat.leb_le in E1. apply Nat.leb_le in E2.
    unfold PyStr.is_lower, PyStr.code in *.
    rewrite nat_ascii_embedding by lia.
    apply andb_true_intro; split; apply Nat.leb_le; lia. }
  rewrite Hx in Hlow. congruence.
Qed.

Lemma contains_app (x : ascii) (s t : string) :
  PyStr.contains x (s ++ t)%string = PyStr.contains x s || PyStr.contains x t.
Proof.
  induction s as [|c s IH]; simpl; [reflexivity|].
  now rewrite IH, orb_assoc.
Qed.

Lemma guard_with_separator (sep : ascii) (tok rest : string) :
  PyStr.is_upper sep = false -> PyStr.is_lower sep = false ->
  negb (PyStr.nonempty (tok ++ String sep rest))
  || String.eqb (PyStr.lower (tok ++ String sep rest)) "na"
  || String.eqb (PyStr.lower (tok ++ String sep rest)) "" = false.
Proof.
  intros Hu Hl.
  assert (Hc : PyStr.contains sep (PyStr.lower (tok ++ String sep rest)) = true).
  { rewrite (lower_keeps_char sep _ Hu Hl), contains_app. simpl.
    now rewrite Ascii.eqb_refl, orb_true_r. }
  assert (Hne : PyStr.nonempty (tok ++ String sep rest) = true) by (destruct tok; reflexivity).
  rewrite Hne. simpl.
  destruct (String.eqb_spec (PyStr.lower (tok ++ String sep rest)) "na") as [E|_].
  - rewrite E in Hc. cbn [PyStr.contains] in Hc.
    destruct (Ascii.eqb_spec "n" sep) as [<-|_]; [vm_compute in Hl; discriminate Hl|].
    destruct (Ascii.eqb_spec "a" sep) as [<-|_]; [vm_compute in Hl; discriminate Hl|].
    simpl in Hc. discriminate Hc.
  - destruct (String.eqb_spec (PyStr.lower (tok ++ String sep rest)) "") as [E|_]; [|reflexivity].
    rewrite E in Hc. discriminate Hc.
Qed.

(** What follows the first underscore of a token is ignored by the
    normalization, and so is what follows its first slash, provided the
    part before is neither empty nor a spelling of [na] (which alone would
    be ["Unknown"] but with a suffix is looked up). *)
Theorem normalize_country_suffix (env : Catalog) (tok rest : string) :
  PyStr.nonempty tok = true ->
  PyStr.lower tok <> "na" ->
  PyStr.contains "_" tok = false ->
  normalize_country env (Some (tok ++ String "_" rest)%string)
  = normalize_country env (Some tok)
  /\ (PyStr.contains "/" tok = false ->
      normalize_country env (Some (tok ++ String "/" rest)%string)
      = normalize_country env (Some tok)).
Proof.
  intros Hne Hna Hu.
  assert (Hguard : negb (PyStr.nonempty tok) || String.eqb (PyStr.lower tok) "na"
                   || String.eqb (PyStr.lower tok) "" = false).
  { rewrite Hne. simpl. apply String.eqb_neq in Hna. rewrite Hna. simpl.
    destruct tok; [discriminate Hne | reflexivity]. }
  split.
  - unfold normalize_country.
    rewrite (guard_with_separator "_" tok rest eq_refl eq_refl), Hguard.
    rewrite (first_split_app "_" tok rest Hu), (split_no_sep "_" tok Hu).
    reflexivity.
  - intros Hs. unfold normalize_country.
    rewrite (guard_with_separator "/" tok rest eq_refl eq_refl), Hguard.
    rewrite (split_no_sep "_" tok Hu). cbn [PyStr.first hd].
    rewrite (split_no_sep "/" tok Hs). cbn [PyStr.first hd].
    assert (E : PyStr.first (PyStr.split "/" (PyStr.first (PyStr.split "_" (tok ++ String "/" rest))))
                = tok).
    { rewrite (first_split_app_other "_" tok (String "/" rest) Hu).
      cbn [PyStr.split]. change (Ascii.eqb "/" "_") with false. cbv iota.
      replace (PyStr.first match PyStr.split "_" rest with
                           | [] => ["/"]
                           | h :: r => String "/" h :: r
                           end)
        with (String "/" (PyStr.first (PyStr.split "_" rest))).
      - apply first_split_app, Hs.
      - unfold PyStr.first. destruct (PyStr.split "_" rest) eqn:Es; [|reflexivity].
        destruct rest; simpl in Es; [discriminate Es|].
        destruct (Ascii.eqb a "_"); [discriminate Es|].
        destruct (PyStr.split "_" rest); discriminate Es. }
    now rewrite E.
Qed.

Lemma normalize_country_suffix_witness :
  normalize_country small_catalog (Some "Sarawak_strain12/2015") = "Malaysia"
  /\ normalize_country small_catalog (Some ("Sarawak" ++ String "_" "strain12/2015")%string)
     = normalize_country small_catalog (Some "Sarawak").
Proof.
  split; [reflexivity|].
  destruct (normalize_country_suffix small_catalog "Sarawak" "strain12/2015") as [H _];
    [reflexivity | discriminate | reflexivity | exact H].
Defined.

(** ** The sequence filter without and with coordinates *)

Lemma substring_prefix (s : string) (n : nat) :
  n <= String.length s ->
  s = (String.substring 0 n s ++ String.substring n (String.length s - n) s)%string.
Proof.
  revert n; induction s as [|c s IH]; intros n H.
  - destruct n; [reflexivity | simpl in H; lia].
  - destruct n as [|n]; simpl.
    + now rewrite substring_all.
    + f_equal. apply IH. simpl in H. lia.
Qed.

Lemma frame_substring (s : string) :
  frame s = String.substring 0 (String.length s - String.length s mod 3) s.
Proof.
  unfold frame, PyStr.slice, len.
  generalize (String.length s). intros n.
  assert (Hm : n mod 3 <= n) by (apply Nat.Div0.mod_le).
  assert (Hk : n - n mod 3 <= n) by lia.
  assert (E : (Z.of_nat n - Z.of_nat n mod 3)%Z = Z.of_nat (n - n mod 3)).
  { rewrite Nat2Z.inj_sub by exact Hm. f_equal.
    change 3%Z with (Z.of_nat 3). now rewrite <- Nat2Z.inj_mod. }
  rewrite E. clear E. generalize dependent (n - n mod 3). intros k Hk.
  unfold PyStr.clamp_index. rewrite Z.ltb_irrefl.
  destruct (Z.of_nat k <? 0)%Z eqn:E1; [lia|].
  rewrite (Z.min_l (Z.of_nat k)) by lia.
  rewrite (Z.min_l 0) by lia. rewrite Z.sub_0_r, Nat2Z.id. reflexivity.
Qed.

Lemma all_chars_substring (p : ascii -> bool) (s : string) (n m : nat) :
  PyStr.all_chars p s = true -> PyStr.all_chars p (String.substring n m s) = true.
Proof.
  revert n m; induction s as [|c s IH]; intros n m H.
  - destruct n, m; reflexivity.
  - simpl in H. apply andb_prop in H as [Hc Hs].
    destruct n as [|n]; simpl.
    + destruct m as [|m]; simpl; [reflexivity|]. now rewrite Hc, IH.
    + now apply IH.
Qed.

Lemma all_chars_lstrip (p q : ascii -> bool) (s : string) :
  PyStr.all_chars p s = true -> PyStr.all_chars p (PyStr.lstrip_by q s) = true.
Proof.
  induction s as [|c s IH]; [reflexivity|].
  intros H. cbn [PyStr.lstrip_by]. destruct (q c); [|exact H].
  simpl in H. apply andb_prop in H as [_ H]. auto.
Qed.

Lemma all_chars_rstrip (p q : ascii -> bool) (s : string) :
  PyStr.all_chars p s = true -> PyStr.all_chars p (PyStr.rstrip_by q s) = true.
Proof.
  induction s as [|c s IH]; [reflexivity|].
  intros H. simpl in H. apply andb_prop in H as [Hc Hs].
  cbn [PyStr.rstrip_by]. specialize (IH Hs).
  destruct (PyStr.rstrip_by q s) as [|d t].
  - destruct (q c); simpl; [reflexivity | now rewrite Hc].
  - cbn [PyStr.all_chars]. cbn [PyStr.all_chars] in IH. now rewrite Hc, IH.
Qed.

Lemma to_upper_not_lower (c : ascii) : PyStr.is_lower (PyStr.to_upper c) = false.
Proof.
  unfold PyStr.to_upper. destruct (PyStr.is_lower c) eqn:E; [|exact E].
  unfold PyStr.is_lower in E. apply andb_prop in E as [E1 E2].
  apply Nat.leb_le in E1. apply Nat.leb_le in E2.
  unfold PyStr.is_lower, PyStr.code in *.
  rewrite nat_ascii_embedding by lia.
  apply andb_false_iff. left. apply Nat.leb_gt. lia.
Qed.

Lemma upper_no_lower (s : string) :
  PyStr.all_chars (fun c => negb (PyStr.is_lower c)) (PyStr.upper s) = true.
Proof.
  unfold PyStr.upper. induction s as [|c s IH]; [reflexivity|].
  cbn [PyStr.map_chars PyStr.all_chars]. now rewrite to_upper_not_lower, IH.
Qed.

Lemma lstrip_starts_clean (p : ascii -> bool) (s : string) :
  starts_clean p (PyStr.lstrip_by p s).
Proof.
  induction s as [|c s IH]; [exact I|].
  cbn [PyStr.lstrip_by]. destruct (p c) eqn:E; [exact IH | exact E].
Qed.

Lemma rstrip_starts_clean (p q : ascii -> bool) (s : string) :
  starts_clean p s -> starts_clean p (PyStr.rstrip_by q s).
Proof.
  destruct s as [|c s]; [exact (fun H => H)|].
  intros H. cbn [PyStr.rstrip_by].
  destruct (PyStr.rstrip_by q s); [destruct (q c); [exact I | exact H] | exact H].
Qed.

Lemma substring_starts_clean (p : ascii -> bool) (s : string) (m : nat) :
  starts_clean p s -> starts_clean p (String.substring 0 m s).
Proof.
  destruct s as [|c s]; [destruct m; exact (fun H => H)|].
  destruct m; [exact (fun _ => I) | exact (fun H => H)].
Qed.

(** Without coordinates a sequence is rejected exactly when fewer than 90
    bases are left by the trimming; an accepted sequence is the trimmed
    upper-case input less at most two final bases, it has no lower-case
    letter and it does not begin with [N]. *)
Theorem process_sequence_plain (seq : string) :
  (process_sequence seq None None = None <-> (len (trim_N seq) < 90)%Z)
  /\ (forall s,
         process_sequence seq None None = Some s ->
         (exists rest, trim_N seq = (s ++ rest)%string /\ String.length rest <= 2)
         /\ PyStr.all_chars (fun c => negb (PyStr.is_lower c)) s = true
         /\ (forall t, s <> String "N" t)).
Proof.
  assert (Hw : window (trim_N seq) None None = trim_N seq) by reflexivity.
  assert (Hlen : len (frame (trim_N seq)) = (len (trim_N seq) - len (trim_N seq) mod 3)%Z)
    by apply frame_length.
  pose proof (Z.mod_pos_bound (len (trim_N seq)) 3 ltac:(lia)) as Hmod.
  split.
  - unfold process_sequence. rewrite Hw.
    destruct (90 <=? len (frame (trim_N seq)))%Z eqn:E.
    + apply Z.leb_le in E. split; [discriminate | lia].
    + apply Z.leb_gt in E. split; [intros _|reflexivity].
      destruct (Z_lt_ge_dec (len (trim_N seq)) 90) as [H|H]; [exact H|].
      exfalso. rewrite Hlen in E.
      pose proof (Z.div_mod (len (trim_N seq)) 3 ltac:(lia)) as Hd.
      clear Hlen Hw. revert E H Hmod Hd.
      generalize (len (trim_N seq) / 3)%Z (len (trim_N seq) mod 3)%Z (len (trim_N seq)).
      intros q r L. lia.
  - intros s Hs. unfold process_sequence in Hs. rewrite Hw in Hs.
    destruct (90 <=? len (frame (trim_N seq)))%Z; [|discriminate Hs].
    injection Hs as <-. rewrite frame_substring.
    set (t := trim_N seq). set (n := String.length t).
    assert (Hm : n mod 3 <= n) by (apply Nat.Div0.mod_le).
    split; [|split].
    + exists (String.substring (n - n mod 3) (n - (n - n mod 3)) t). split.
      * apply substring_prefix. lia.
      * rewrite substring_length.
        pose proof (Nat.mod_upper_bound n 3 ltac:(lia)). lia.
    + apply all_chars_substring. unfold t, trim_N.
      apply all_chars_rstrip, all_chars_lstrip, upper_no_lower.
    + intros u Hu.
      assert (Hc : starts_clean is_N (String.substring 0 (n - n mod 3) t)).
      { apply substring_starts_clean. unfold t, trim_N.
        apply rstrip_starts_clean, lstrip_starts_clean. }
      rewrite Hu in Hc. discriminate Hc.
Qed.

(** With coordinates [1 <= start <= stop] an accepted sequence has at most
    [stop - start + 1] bases, so a window of fewer than 90 positions
    rejects every sequence. *)
Theorem process_sequence_window (seq : string) (start stop : Z) :
  (1 <= start <= stop)%Z ->
  (forall s, process_sequence seq (Some start) (Some stop) = Some s ->
             (len s <= stop - start + 1)%Z)
  /\ ((stop - start + 1 < 90)%Z -> process_sequence seq (Some start) (Some stop) = None).
Proof.
  intros H.
  assert (Hb : (len (frame (window (trim_N seq) (Some start) (Some stop))) <= stop - start + 1)%Z).
  { rewrite frame_length.
    set (w := window (trim_N seq) (Some start) (Some stop)).
    assert (Hw : (len w <= stop - start + 1)%Z).
    { unfold w, window. cbn [truthy int_or].
      replace (start =? 0)%Z with false by (symmetry; apply Z.eqb_neq; lia).
      replace (stop =? 0)%Z with false by (symmetry; apply Z.eqb_neq; lia).
      cbn [negb orb]. rewrite slice_length.
      assert (H0 : (0 <= len (trim_N seq))%Z) by (unfold len; lia).
      unfold PyStr.clamp_index.
      destruct (stop <? 0)%Z eqn:E1; [lia|].
      destruct (start - 1 <? 0)%Z eqn:E2; lia. }
    pose proof (Z.mod_pos_bound (len w) 3 ltac:(lia)). lia. }
  split.
  - intros s Hs. unfold process_sequence in Hs.
    destruct (90 <=? _)%Z; [|discriminate Hs]. injection Hs as <-. exact Hb.
  - intros Hlt. unfold process_sequence.
    destruct (90 <=? _)%Z eqn:E; [|reflexivity]. apply Z.leb_le in E. lia.
Qed.

Lemma process_sequence_window_witness :
  (1 <= 10 <= 99)%Z
  /\ process_sequence (bases "A" 300) (Some 10%Z) (Some 99%Z) = Some (bases "A" 90)
  /\ (len (bases "A" 90) <= 99 - 10 + 1)%Z.
Proof.
  split; [lia|]. split; [vm_compute; reflexivity|].
  destruct (process_sequence_window (bases "A" 300) 10 99) as [H _]; [lia|].
  apply H. vm_compute. reflexivity.
Defined.

(** ** The loop over the input *)

Lemma load_step_record (env : Catalog) (args : Args)
  (recs : list record) (cnts : list (string * nat)) (rec : SeqRecord) :
  load_step env args (recs, cnts) rec
  = (recs ++ record_of env args rec, fold_left count_step (record_of env args rec) cnts).
Proof.
  unfold load_step, record_of.
  destruct (parse_header env (sr_description rec)) as [[raw c] y]. simpl fst; simpl snd.
  destruct (process_sequence (sr_seq rec) (start args) (stop args)) as [s|].
  - destruct (negb (PyStr.nonempty s)); [now rewrite app_nil_r | reflexivity].
  - now rewrite app_nil_r.
Qed.

Lemma load_fold (env : Catalog) (args : Args) (fasta : list SeqRecord)
  (recs : list record) (cnts : list (string * nat)) :
  fold_left (load_step env args) fasta (recs, cnts)
  = (recs ++ flat_map (record_of env args) fasta,
     fold_left count_step (flat_map (record_of env args) fasta) cnts).
Proof.
  revert recs cnts; induction fasta as [|rec t IH]; intros recs cnts.
  - simpl. now rewrite app_nil_r.
  - cbn [fold_left flat_map]. rewrite load_step_record, IH, fold_left_app, app_assoc.
    reflexivity.
Qed.

Lemma load_records_flat (env : Catalog) (args : Args) (fasta : list SeqRecord) :
  load_records env args fasta
  = (flat_map (record_of env args) fasta,
     fold_left count_step (flat_map (record_of env args) fasta) []).
Proof. unfold load_records. now rewrite load_fold. Qed.

Lemma accepted_nonempty (seq : string) (start stop : option Z) (s : string) :
  process_sequence seq start stop = Some s -> PyStr.nonempty s = true.
Proof.
  unfold process_sequence. destruct (90 <=? _)%Z eqn:E; [|discriminate].
  intros [= <-]. apply Z.leb_le in E.
  destruct (frame _); [unfold len in E; simpl in E; lia | reflexivity].
Qed.

Lemma process_sequence_framed (seq : string) (start stop : option Z) (s : string) :
  process_sequence seq start stop = Some s -> (90 <= len s)%Z /\ (len s mod 3 = 0)%Z.
Proof.
  unfold process_sequence. destruct (90 <=? _)%Z eqn:E; [|discriminate].
  intros [= <-]. apply Z.leb_le in E. split; [exact E | apply frame_codons].
Qed.

Lemma kept_records_framed (env : Catalog) (args : Args) (fasta : list SeqRecord) (r : record) :
  In r (fst (load_records env args fasta)) ->
  (90 <= len (seq r))%Z /\ (len (seq r) mod 3 = 0)%Z.
Proof.
  rewrite load_records_flat. cbn [fst]. intros Hr.
  apply in_flat_map in Hr as (rec & _ & Hr). unfold record_of in Hr.
  destruct (process_sequence (sr_seq rec) (start args) (stop args)) as [s|] eqn:E;
    [|contradiction].
  rewrite (accepted_nonempty _ _ _ _ E) in Hr. destruct Hr as [<-|[]].
  exact (process_sequence_framed _ _ _ _ E).
Qed.

(** The records kept by the loop are the input records that the filter
    accepts, in input order, one each: a kept record carries the id of its
    input record, the accepted sequence (at least 90 bases, a whole number
    of codons), the country and year parsed from the description and the
    continent of that country. *)
Theorem load_records_kept (env : Catalog) (args : Args) (fasta : list SeqRecord) :
  let records := fst (load_records env args fasta) in
  map rec_id records = map sr_id (filter (accepted args) fasta)
  /\ List.length records <= List.length fasta
  /\ (forall r,
         In r records ->
         (90 <= len (seq r))%Z /\ (len (seq r) mod 3 = 0)%Z
         /\ continent r = country_to_continent env (country r)
         /\ exists rec,
             In rec fasta /\ rec_id r = sr_id rec
             /\ process_sequence (sr_seq rec) (start args) (stop args) = Some (seq r)
             /\ parse_header env (sr_description rec)
                = (fst (fst (parse_header env (sr_description rec))), country r, year r)
             /\ subgenotype r = extract_subgenotype (sr_description rec)).
Proof.
  intros records. unfold records. clear records. rewrite load_records_flat. cbn [fst].
  assert (Hone : forall rec,
             record_of env args rec
             = if accepted args rec
               then [mkRecord (sr_id rec)
                       (match process_sequence (sr_seq rec) (start args) (stop args) with
                        | Some s => s | None => EmptyString end)
                       (snd (fst (parse_header env (sr_description rec))))
                       (country_to_continent env
                          (snd (fst (parse_header env (sr_description rec)))))
                       (snd (parse_header env (sr_description rec)))
                       (extract_subgenotype (sr_description rec))]
               else []).
  { intros rec. unfold record_of, accepted.
    destruct (process_sequence _ _ _) as [s|] eqn:E; [|reflexivity].
    now rewrite (accepted_nonempty _ _ _ _ E). }
  split; [|split].
  - induction fasta as [|rec t IH]; [reflexivity|].
    cbn [flat_map filter]. rewrite map_app, IH, Hone.
    destruct (accepted args rec); reflexivity.
  - induction fasta as [|rec t IH]; [apply Nat.le_refl|].
    cbn [flat_map]. rewrite length_app, Hone.
    destruct (accepted args rec); simpl; lia.
  - intros r Hr. apply in_flat_map in Hr as (rec & Hrec & Hr).
    unfold record_of in Hr.
    destruct (process_sequence (sr_seq rec) (start args) (stop args)) as [s|] eqn:E;
      [|contradiction].
    rewrite (accepted_nonempty _ _ _ _ E) in Hr. destruct Hr as [<-|[]]. cbn.
    destruct (process_sequence_framed _ _ _ _ E) as [H1 H2].
    repeat split; try assumption.
    exists rec. repeat split; try assumption.
    destruct (parse_header env (sr_description rec)) as [[raw c] y]. reflexivity.
Qed.

Lemma counter_get_incr (c c' : string) (cs : list (string * nat)) :
  counter_get c' (counter_incr c cs)
  = if String.eqb c' c
    then Some (match counter_get c cs with Some n => S n | None => 1 end)
    else counter_get c' cs.
Proof.
  induction cs as [|[c0 n0] t IH]; simpl.
  - reflexivity.
  - destruct (String.eqb_spec c c0) as [->|Hc]; simpl.
    + destruct (String.eqb_spec c' c0); reflexivity.
    + rewrite IH. destruct (String.eqb_spec c' c0) as [->|Hc'].
      * destruct (String.eqb_spec c0 c); [congruence | reflexivity].
      * reflexivity.
Qed.

Lemma counter_keys_incr (c c' : string) (cs : list (string * nat)) :
  In c' (map fst (counter_incr c cs)) <-> c' = c \/ In c' (map fst cs).
Proof.
  induction cs as [|[c0 n0] t IH]; simpl.
  - intuition congruence.
  - destruct (String.eqb_spec c c0) as [->|Hc]; simpl.
    + intuition congruence.
    + rewrite IH. intuition congruence.
Qed.

Lemma counter_NoDup_incr (c : string) (cs : list (string * nat)) :
  NoDup (map fst cs) -> NoDup (map fst (counter_incr c cs)).
Proof.
  induction cs as [|[c0 n0] t IH]; simpl; intros H.
  - constructor; [intros [] | constructor].
  - inversion H as [|? ? Hin Hnd]; subst.
    destruct (String.eqb_spec c c0) as [->|Hc]; simpl.
    + constructor; assumption.
    + constructor; [|auto].
      rewrite counter_keys_incr. intros [E|E]; [congruence | contradiction].
Qed.

Lemma counter_sum_incr (c : string) (cs : list (string * nat)) :
  list_sum (map snd (counter_incr c cs)) = S (list_sum (map snd cs)).
Proof.
  induction cs as [|[c0 n0] t IH]; simpl; [reflexivity|].
  destruct (String.eqb c c0); simpl; [lia | rewrite IH; lia].
Qed.

Lemma counter_get_In (c : string) (n : nat) (cs : list (string * nat)) :
  NoDup (map fst cs) -> (In (c, n) cs <-> counter_get c cs = Some n).
Proof.
  induction cs as [|[c0 n0] t IH]; simpl; intros H.
  - split; [intros [] | discriminate].
  - inversion H as [|? ? Hin Hnd]; subst.
    destruct (String.eqb_spec c c0) as [->|Hc].
    + split.
      * intros [E|E]; [congruence|].
        exfalso; apply Hin. change c0 with (fst (c0, n)). now apply in_map.
      * intros E; left; congruence.
    + rewrite <- (IH Hnd). split; [intros [E|E]; [congruence | exact E] | auto].
Qed.

Lemma n_seqs_cons (r : record) (rs : list record) (c : string) :
  n_seqs (r :: rs) c = (if String.eqb (country r) c then 1 else 0) + n_seqs rs c.
Proof.
  unfold n_seqs, seqs_of. simpl. destruct (String.eqb (country r) c); reflexivity.
Qed.

Lemma count_fold (c : string) (rs : list record) (cs : list (string * nat)) :
  counter_get c (fold_left count_step rs cs)
  = match counter_get c cs with
    | Some n => Some (n + n_seqs rs c)
    | None => if n_seqs rs c =? 0 then None else Some (n_seqs rs c)
    end.
Proof.
  revert cs; induction rs as [|r rs IH]; intros cs.
  - simpl. destruct (counter_get c cs); [now rewrite Nat.add_0_r | reflexivity].
  - cbn [fold_left]. rewrite IH, n_seqs_cons. unfold count_step.
    rewrite counter_get_incr, (String.eqb_sym c (country r)).
    destruct (String.eqb_spec (country r) c) as [->|Hc].
    + destruct (counter_get c cs) as [n|]; simpl; f_equal; lia.
    + destruct (counter_get c cs) as [n|]; reflexivity.
Qed.

Lemma count_fold_NoDup (rs : list record) (cs : list (string * nat)) :
  NoDup (map fst cs) -> NoDup (map fst (fold_left count_step rs cs)).
Proof.
  revert cs; induction rs as [|r rs IH]; intros cs H; [exact H|].
  cbn [fold_left]. apply IH, counter_NoDup_incr, H.
Qed.

Lemma count_fold_sum (rs : list record) (cs : list (string * nat)) :
  list_sum (map snd (fold_left count_step rs cs))
  = list_sum (map snd cs) + List.length rs.
Proof.
  revert cs; induction rs as [|r rs IH]; intros cs; simpl; [lia|].
  rewrite IH. unfold count_step. rewrite counter_sum_incr. lia.
Qed.

(** The counter logged by [main] agrees with the records kept: it has one
    entry per country that occurs, holding the number of records of that
    country, and its counts add up to the number of records. *)
Theorem country_counts_agree (env : Catalog) (args : Args) (fasta : list SeqRecord) :
  let records := fst (load_records env args fasta) in
  let country_counts := snd (load_records env args fasta) in
  NoDup (map fst country_counts)
  /\ (forall c n, In (c, n) country_counts <-> n = n_seqs records c /\ 0 < n)
  /\ list_sum (map snd country_counts) = List.length records.
Proof.
  intros records country_counts. unfold records, country_counts.
  rewrite load_records_flat. cbn [fst snd].
  set (rs := flat_map (record_of env args) fasta).
  assert (Hnd : NoDup (map fst (fold_left count_step rs []))).
  { apply count_fold_NoDup. constructor. }
  split; [exact Hnd|]. split.
  - intros c n. rewrite (counter_get_In c n _ Hnd), count_fold. simpl.
    destruct (n_seqs rs c) as [|k] eqn:E; simpl.
    + split; [discriminate | intros [-> H]; lia].
    + split; [intros [= <-]; split; [reflexivity | lia] | intros [-> _]; reflexivity].
  - rewrite count_fold_sum. reflexivity.
Qed.

(** ** What the tasks are made of *)

Lemma paired_In_rows {X : Type} (cty : X -> string) (rows : list X) (x y : X) :
  In (x, y) (paired cty rows) -> In x rows /\ In y rows.
Proof.
  unfold paired. rewrite in_app_iff. intros [H|H].
  - apply cross_pairs_In in H as (Hx & Hy & _). auto.
  - apply within_pairs_In in H as (_ & _ & H).
    destruct (combinations2_In _ _ _ H) as [Hx Hy].
    apply sel_In in Hx as [Hx _]. apply sel_In in Hy as [Hy _]. auto.
Qed.

Lemma task_records (args : Args) (df : list record) (t : task) :
  In t (gen_tasks args df) ->
  exists r1 r2,
    In r1 df /\ In r2 df /\ t = task_of args (r1, r2)
    /\ country r1 <> Unknown /\ country r2 <> Unknown.
Proof.
  rewrite gen_tasks_paired, in_map_iff. intros ([r1 r2] & <- & H).
  destruct (paired_In_rows _ _ _ _ H) as [H1 H2].
  destruct (paired_known _ _ _ _ H) as [K1 K2].
  exists r1, r2. auto.
Qed.

Lemma length_append_string (s t : string) :
  String.length (s ++ t)%string = String.length s + String.length t.
Proof. induction s as [|c s IH]; simpl; [reflexivity | now rewrite IH]. Qed.

Lemma framed_body (s : string) :
  (len s mod 3 = 0)%Z -> (len (s ++ "N")%string mod 3 = 1)%Z.
Proof.
  intros H. unfold len in *. rewrite length_append_string, Nat2Z.inj_add.
  rewrite Z.add_mod, H by lia. reflexivity.
Qed.

(** Every task built from the records kept by the loop pairs two accepted
    sequences (at least 90 bases, whole codons) of known country.  The
    worker asks the oracle about these two sequences, each followed by one
    [N] (so one base past a whole number of codons), with the genetic code
    and the method of the command line; it returns the oracle's two values
    under the task's groups, and nothing when the oracle fails. *)
Theorem oracle_inputs (env : Catalog) (kaks : Oracle) (args : Args)
  (fasta : list SeqRecord) (t : task) :
  In t (gen_tasks args (fst (load_records env args fasta))) ->
  (90 <= len (seq1 t))%Z /\ (len (seq1 t) mod 3 = 0)%Z
  /\ (90 <= len (seq2 t))%Z /\ (len (seq2 t) mod 3 = 0)%Z
  /\ gA t <> Unknown /\ gB t <> Unknown
  /\ task_genetic_code t = genetic_code args /\ task_method t = method args
  /\ run_kaks_worker kaks t
     = match kaks (seq1 t ++ "N")%string (seq2 t ++ "N")%string
                  (genetic_code args) (method args) with
       | Some (ka, ks) => Some (gA t, gB t, ka, ks)
       | None => None
       end
  /\ (len (seq1 t ++ "N")%string mod 3 = 1)%Z
  /\ (len (seq2 t ++ "N")%string mod 3 = 1)%Z.
Proof.
  intros H. apply task_records in H as (r1 & r2 & H1 & H2 & -> & K1 & K2).
  destruct (kept_records_framed env args fasta r1 H1) as [A1 B1].
  destruct (kept_records_framed env args fasta r2 H2) as [A2 B2].
  unfold run_kaks_worker, fasta_body, task_of, mk_task.
  cbn [seq1 seq2 gA gB task_genetic_code task_method fst snd].
  repeat split; try assumption; try reflexivity; now apply framed_body.
Qed.

Lemma oracle_inputs_witness :
  run_kaks_worker always_answers
    (mk_task example_args (bases "A" 93) (bases "A" 93) "Malaysia" "Malaysia")
  = match always_answers (bases "A" 93 ++ "N")%string (bases "A" 93 ++ "N")%string
                         (genetic_code example_args) (method example_args) with
    | Some (ka, ks) => Some ("Malaysia", "Malaysia", ka, ks)
    | None => None
    end.
Proof.
  destruct (oracle_inputs small_catalog always_answers example_args example_fasta
              (mk_task example_args (bases "A" 93) (bases "A" 93) "Malaysia" "Malaysia"))
    as (_ & _ & _ & _ & _ & _ & _ & _ & H & _).
  - vm_compute. left. reflexivity.
  - exact H.
Defined.

(** *** The number of tasks *)

Lemma list_sum_map_add {K : Type} (f g : K -> nat) (l : list K) :
  list_sum (map (fun c => f c + g c) l) = list_sum (map f l) + list_sum (map g l).
Proof. induction l as [|x t IH]; simpl; [reflexivity | rewrite IH; lia]. Qed.

Lemma list_sum_map_mul {K : Type} (a : nat) (f : K -> nat) (l : list K) :
  list_sum (map (fun c => a * f c) l) = a * list_sum (map f l).
Proof. induction l as [|x t IH]; simpl; [lia | rewrite IH; lia]. Qed.

Lemma indicator_sum (a : string) (l : list string) :
  NoDup l ->
  list_sum (map (fun c => if String.eqb a c then 1 else 0) l)
  = if existsb (String.eqb a) l then 1 else 0.
Proof.
  induction 1 as [|k t Hk Hnd IH]; simpl; [reflexivity|].
  destruct (String.eqb_spec a k) as [->|Hn]; simpl; [|exact IH].
  rewrite sum_all_zero; [reflexivity|].
  intros c Hc. destruct (String.eqb_spec k c); [congruence | reflexivity].
Qed.

Lemma mul_pred (n : nat) : n * (n - 1) + n = n * n.
Proof. destruct n; simpl; lia. Qed.

(** Products over the pairs of a list and over its elements against the
    square of the sum. *)
Lemma pair_sum (n : string -> nat) (l : list string) :
  2 * list_sum (map (fun cc => n (fst cc) * n (snd cc)) (combinations2 l))
  + list_sum (map (fun c => n c * (n c - 1)) l)
  = list_sum (map n l) * (list_sum (map n l) - 1).
Proof.
  induction l as [|x t IH]; [reflexivity|].
  cbn [combinations2 map list_sum fold_right].
  fold (list_sum (map n t)). fold (list_sum (map (fun c => n c * (n c - 1)) t)).
  rewrite map_app, map_map. cbn [fst snd].
  rewrite list_sum_app, (list_sum_map_mul (n x) n t).
  pose proof (mul_pred (n x)) as Ha.
  pose proof (mul_pred (list_sum (map n t))) as Hs.
  pose proof (mul_pred (n x + list_sum (map n t))) as Hxs.
  nia.
Qed.

Section TaskCount.

Context {X : Type} (cty : X -> string).

Lemma partition_count (K : list string) (rows : list X) :
  NoDup K ->
  list_sum (map (fun c => List.length (sel cty rows c)) K)
  = List.length (filter (fun x => existsb (String.eqb (cty x)) K) rows).
Proof.
  intros HK. induction rows as [|x rows IH].
  - simpl. apply sum_all_zero. reflexivity.
  - rewrite (map_ext _ (fun c => (if String.eqb (cty x) c then 1 else 0)
                                 + List.length (sel cty rows c))).
    + rewrite list_sum_map_add, IH, (indicator_sum _ _ HK). simpl.
      destruct (existsb (String.eqb (cty x)) K); reflexivity.
    + intros c. unfold sel. simpl. destruct (String.eqb (cty x) c); reflexivity.
Qed.

Lemma known_count (rows : list X) :
  list_sum (map (fun c => List.length (sel cty rows c)) (known_of cty rows))
  = List.length (filter (fun x => negb (String.eqb (cty x) Unknown)) rows).
Proof.
  rewrite (partition_count _ rows (known_of_NoDup cty rows)). f_equal.
  apply filter_ext_in. intros x Hx.
  destruct (String.eqb_spec (cty x) Unknown) as [E|E]; simpl.
  - destruct (existsb _ _) eqn:Ex; [|reflexivity].
    apply existsb_exists in Ex as (c & Hc & Ec). apply String.eqb_eq in Ec. subst c.
    apply known_of_In in Hc as [Hc _]. contradiction.
  - apply existsb_exists. exists (cty x). split; [|apply String.eqb_refl].
    apply known_of_In. eauto.
Qed.

Lemma within_twice (rows : list X) (K : list string) :
  2 * list_sum (map (fun c => List.length (combinations2 (sel cty rows c))) K)
  = list_sum (map (fun c => List.length (sel cty rows c) * (List.length (sel cty rows c) - 1)) K).
Proof.
  induction K as [|c K IH]; [reflexivity|].
  cbn [map list_sum fold_right].
  fold (list_sum (map (fun c => List.length (combinations2 (sel cty rows c))) K)).
  fold (list_sum (map (fun c => List.length (sel cty rows c) * (List.length (sel cty rows c) - 1)) K)).
  pose proof (combinations2_length (sel cty rows c)). lia.
Qed.

Lemma paired_count (rows : list X) :
  2 * List.length (paired cty rows)
  = List.length (filter (fun x => negb (String.eqb (cty x) Unknown)) rows)
    * (List.length (filter (fun x => negb (String.eqb (cty x) Unknown)) rows) - 1).
Proof.
  rewrite paired_length, <- known_count.
  rewrite <- (pair_sum (fun c => List.length (sel cty rows c)) (known_of cty rows)).
  rewrite <- within_twice. lia.
Qed.

End TaskCount.

(** With [m] records of known country there are [m (m - 1) / 2] tasks:
    one per pair of two such records, whatever their countries. *)
Theorem task_count (args : Args) (df : list record) :
  let m := List.length (filter (fun r => negb (String.eqb (country r) Unknown)) df) in
  2 * List.length (gen_tasks args df) = m * (m - 1)
  /\ List.length (gen_tasks args df) = m * (m - 1) / 2.
Proof.
  intros m.
  assert (H : 2 * List.length (gen_tasks args df) = m * (m - 1)).
  { rewrite gen_tasks_paired, length_map. apply paired_count. }
  split; [exact H|].
  rewrite <- H, Nat.mul_comm, Nat.div_mul; [reflexivity | discriminate].
Qed.

(** ** The dictionary of results and the table of a run *)

Lemma setdefault_total (k : group_key) (v : float * float) (agg : agg_dict) :
  list_sum (map (fun e => List.length (snd e)) (setdefault_append k v agg))
  = S (list_sum (map (fun e => List.length (snd e)) agg)).
Proof.
  induction agg as [|[k0 vs0] t IH]; simpl; [reflexivity|].
  destruct (key_eqb k k0); simpl.
  - rewrite length_app. simpl. lia.
  - rewrite IH. lia.
Qed.

Lemma fold_agg_total (results : list (option pair_result)) (acc : agg_dict) :
  list_sum (map (fun e => List.length (snd e)) (fold_left agg_step results acc))
  = list_sum (map (fun e => List.length (snd e)) acc)
    + List.length (filter succeeded results).
Proof.
  revert acc; induction results as [|r rs IH]; intros acc; simpl; [lia|].
  rewrite IH. destruct r as [[[[a b] ka] ks]|]; simpl; [|reflexivity].
  rewrite setdefault_total. lia.
Qed.

Lemma group_vals_In (k : group_key) (ka ks : float) (results : list (option pair_result)) :
  In (ka, ks) (group_vals k results) <-> In (Some (fst k, snd k, ka, ks)) results.
Proof.
  unfold group_vals. rewrite in_flat_map. split.
  - intros (r & Hr & Hv). destruct r as [[[[a0 b0] ka0] ks0]|]; [|contradiction].
    destruct (key_eqb_spec (a0, b0) k) as [<-|]; [|contradiction].
    destruct Hv as [[= <- <-]|[]]. exact Hr.
  - intros H. exists (Some (fst k, snd k, ka, ks)). split; [exact H|].
    destruct k as [a b]. cbn [fst snd]. rewrite key_eqb_refl. now left.
Qed.

Lemma build_agg_key_results (a b : string) (results : list (option pair_result)) :
  In (a, b) (map fst (build_agg results))
  <-> exists ka ks, In (Some (a, b, ka, ks)) results.
Proof.
  rewrite build_agg_keys. split.
  - intros H. destruct (group_vals (a, b) results) as [|[ka ks] l] eqn:E; [congruence|].
    exists ka, ks. apply (group_vals_In (a, b)). rewrite E. now left.
  - intros (ka & ks & H) E. apply (group_vals_In (a, b)) in H. rewrite E in H. contradiction.
Qed.

(** The dictionary [agg] sorts the successful results by label: its keys
    are distinct, a label is a key exactly when a result carries it, its
    entry is then the list of the values of these results in arrival
    order, and the entries hold as many values as there are successful
    results. *)
Theorem agg_sorts_results (results : list (option pair_result)) :
  NoDup (map fst (build_agg results))
  /\ (forall k vs,
         In (k, vs) (build_agg results) <-> vs = group_vals k results /\ vs <> [])
  /\ (forall a b,
         In (a, b) (map fst (build_agg results))
         <-> exists ka ks, In (Some (a, b, ka, ks)) results)
  /\ list_sum (map (fun e => List.length (snd e)) (build_agg results))
     = List.length (filter succeeded results).
Proof.
  split; [apply NoDup_keys_build|]. split; [intros k vs; apply build_agg_In|].
  split; [intros a b; apply build_agg_key_results|].
  unfold build_agg. rewrite fold_agg_total. reflexivity.
Qed.

Lemma row_labels_of_rows (env : Catalog) (args : Args) (agg : agg_dict) :
  map row_label (make_rows env args agg) = flat_map label_block (map fst agg).
Proof.
  unfold make_rows. induction agg as [|[k vs] t IH]; [reflexivity|].
  cbn [flat_map map fst]. rewrite map_app, IH. f_equal.
  unfold rows_of_group, label_block. destruct k as [a b]. cbn [fst snd].
  destruct (negb (a =? b)%string); reflexivity.
Qed.

Lemma label_blocks_NoDup (keys : list group_key) :
  NoDup keys ->
  (forall k, In k keys -> fst k <> snd k -> ~ In (swap_key k) keys) ->
  NoDup (flat_map label_block keys).
Proof.
  intros Hnd Hor.
  apply (flat_map_NoDup label_block
           (fun b => if in_dec key_dec b keys then b else swap_key b)).
  - exact Hnd.
  - intros k _. unfold label_block.
    destruct (String.eqb_spec (fst k) (snd k)) as [E|E]; simpl.
    + constructor; [intros [] | constructor].
    + constructor; [|constructor; [intros [] | constructor]].
      intros [H|[]]. apply E. destruct k as [a b]. unfold swap_key in H. simpl in *.
      congruence.
  - intros k b Hk Hb. unfold label_block in Hb.
    destruct (String.eqb_spec (fst k) (snd k)) as [E|E]; simpl in Hb.
    + destruct Hb as [<-|[]]. destruct (in_dec key_dec k keys); [reflexivity | contradiction].
    + destruct Hb as [<-|[<-|[]]].
      * destruct (in_dec key_dec k keys); [reflexivity | contradiction].
      * destruct (in_dec key_dec (swap_key k) keys) as [H|_].
        -- exfalso. exact (Hor k Hk E H).
        -- destruct k; reflexivity.
Qed.

Lemma task_label (args : Args) (df : list record) (t : task) :
  In t (gen_tasks args df) ->
  In (gA t, gB t) (combinations2 (known_countries df))
  \/ (gA t = gB t /\ In (gA t) (known_countries df)).
Proof.
  rewrite gen_tasks_paired, in_map_iff. intros ([x y] & <- & H).
  unfold paired in H. rewrite in_app_iff in H. cbn.
  destruct H as [H|H].
  - left. now apply cross_pairs_In in H as (_ & _ & H).
  - right. apply within_pairs_In in H as (Hu & E & H). split; [exact E|].
    apply (known_of_In country). split; [exact Hu|].
    apply combinations2_In in H as [H _]. apply sel_In in H as [H _]. eauto.
Qed.

Lemma result_label (kaks : Oracle) (tasks : list task) (a b : string) (ka ks : float) :
  In (Some (a, b, ka, ks)) (map (run_kaks_worker kaks) tasks) ->
  exists t, In t tasks /\ gA t = a /\ gB t = b.
Proof.
  rewrite in_map_iff. intros (t & E & Ht). exists t. split; [exact Ht|].
  unfold run_kaks_worker in E.
  destruct (kaks _ _ _ _) as [[ka' ks']|]; [|discriminate E].
  injection E as -> -> _ _. auto.
Qed.

(** The table of a run has no two rows with the same pair of groups; the
    groups of every row are countries of the records other than
    ["Unknown"], its continents are the continents of its groups, and it
    counts at least one pair. *)
Theorem output_table_labels (env : Catalog) (kaks : Oracle) (args : Args) (df : list record) :
  let rows := aggregate env args (map (run_kaks_worker kaks) (gen_tasks args df)) in
  NoDup (map row_label rows)
  /\ (forall r,
         In r rows ->
         In (Group_A r) (known_countries df) /\ In (Group_B r) (known_countries df)
         /\ Group_A r <> Unknown /\ Group_B r <> Unknown
         /\ Continent_A r = country_to_continent env (Group_A r)
         /\ Continent_B r = country_to_continent env (Group_B r)
         /\ 0 < pairs r).
Proof.
  intros rows. unfold rows, aggregate. clear rows.
  set (results := map (run_kaks_worker kaks) (gen_tasks args df)).
  assert (Hkey : forall k, In k (map fst (build_agg results)) ->
                           In k (combinations2 (known_countries df))
                           \/ (fst k = snd k /\ In (fst k) (known_countries df))).
  { intros [a b] Hk.
    apply build_agg_key_results in Hk as (ka & ks & Hk).
    apply result_label in Hk as (t & Ht & <- & <-).
    exact (task_label args df t Ht). }
  split.
  - rewrite row_labels_of_rows. apply label_blocks_NoDup; [apply NoDup_keys_build|].
    intros k Hk Hne Hs.
    destruct (Hkey k Hk) as [H1|[H1 _]]; [|contradiction].
    destruct (Hkey _ Hs) as [H2|[H2 _]]; [|unfold swap_key in H2; simpl in H2; congruence].
    destruct k as [a b]. unfold swap_key in H2. simpl in H2.
    apply (combinations2_asym _ _ _ (known_of_NoDup country df)) in H1 as [_ H1].
    contradiction.
  - intros r Hr. apply make_rows_In in Hr as (k & vs & Hin & Hr).
    assert (Hk : In k (map fst (build_agg results))).
    { change k with (fst (k, vs)). now apply in_map. }
    assert (Hboth : In (fst k) (known_countries df) /\ In (snd k) (known_countries df)).
    { destruct (Hkey k Hk) as [H|[E H]].
      - destruct k as [a b]. now apply combinations2_In in H.
      - rewrite <- E. auto. }
    destruct Hboth as [Ha Hb].
    assert (Ka : fst k <> Unknown) by (apply (known_of_In country) in Ha as [Ha _]; exact Ha).
    assert (Kb : snd k <> Unknown) by (apply (known_of_In country) in Hb as [Hb _]; exact Hb).
    assert (Hvs : 0 < List.length vs).
    { apply build_agg_In in Hin as [_ Hne]. destruct vs; [congruence | simpl; lia]. }
    unfold rows_of_group in Hr.
    destruct (negb (fst k =? snd k)%string); simpl in Hr;
      [destruct Hr as [<-|[<-|[]]] | destruct Hr as [<-|[]]]; cbn; auto 10.
Qed.

Lemma rows_of_group_not_nil (env : Catalog) (args : Args)
  (e : group_key * list (float * float)) :
  rows_of_group env args e <> [].
Proof.
  destruct e as [k vs]. unfold rows_of_group.
  destruct (negb (fst k =? snd k)%string); discriminate.
Qed.

(** A run ends in one of two ways.  Either it exits with status 1 and has
    written no file; or it returns, and then it has written the table,
    which is the aggregate of the results of the tasks and has at least
    one row, followed, when the option asks for it, by the trimmed FASTA
    with one entry per record kept, those of unknown country included.
    Both ways the log begins with the countries and their counts. *)
Theorem main_files (env : Catalog) (kaks : Oracle) (args : Args) (fasta : list SeqRecord) :
  let records := fst (load_records env args fasta) in
  let run := main env kaks args fasta initial_world in
  (exists l,
      log (fst run)
      = (INFO, CountriesDetected) :: map count_msg (snd (load_records env args fasta)) ++ l)
  /\ ((snd run = Exit 1%Z /\ files (fst run) = [])
      \/ (snd run = Ret tt
          /\ exists rows,
              rows <> []
              /\ rows = aggregate env args
                          (map (run_kaks_worker kaks) (gen_tasks args records))
              /\ files (fst run)
                 = (OutputCsv (output args), Csv rows)
                   :: (if save_trimmed_fasta args
                       then [(TrimmedFastaOf (output args),
                              Fasta (map trimmed_entry records))]
                       else []))).
Proof.
  intros records run. unfold run. rewrite main_closed_form. unfold main_outcome.
  fold records. clear run.
  destruct (is_nil records).
  - split; [eexists; cbn; reflexivity|]. left. split; reflexivity.
  - set (results := map (run_kaks_worker kaks) (gen_tasks args records)).
    destruct (build_agg results) as [|e agg'] eqn:E.
    + split; [eexists; cbn; rewrite <- app_assoc; reflexivity|]. left. split; reflexivity.
    + cbn [is_nil].
      assert (Hrows : make_rows env args (e :: agg') <> []).
      { unfold make_rows. cbn [flat_map].
        pose proof (rows_of_group_not_nil env args e) as Hne.
        destruct (rows_of_group env args e); [congruence | discriminate]. }
      destruct (save_trimmed_fasta args).
      * split; [eexists; cbn; rewrite <- !app_assoc; reflexivity|]. right.
        split; [reflexivity|]. exists (make_rows env args (e :: agg')).
        split; [exact Hrows|]. split; [unfold aggregate; now rewrite E | reflexivity].
      * split; [eexists; cbn; rewrite <- !app_assoc; reflexivity|]. right.
        split; [reflexivity|]. exists (make_rows env args (e :: agg')).
        split; [exact Hrows|]. split; [unfold aggregate; now rewrite E | reflexivity].
Qed.

(** A run whose input leaves fewer than two records of known country has
    no task to run and exits with status 1 without writing a file. *)
Theorem main_needs_two_records (env : Catalog) (kaks : Oracle) (args : Args)
  (fasta : list SeqRecord) :
  List.length (filter (fun r => negb (String.eqb (country r) Unknown))
                 (fst (load_records env args fasta))) <= 1 ->
  gen_tasks args (fst (load_records env args fasta)) = []
  /\ snd (main env kaks args fasta initial_world) = Exit 1%Z
  /\ files (fst (main env kaks args fasta initial_world)) = [].
Proof.
  intros Hm.
  assert (Ht : gen_tasks args (fst (load_records env args fasta)) = []).
  { pose proof (paired_count country (fst (load_records env args fasta))) as Hc.
    rewrite gen_tasks_paired.
    destruct (paired country (fst (load_records env args fasta))) as [|p l]; [reflexivity|].
    exfalso. simpl in Hc.
    destruct (List.length (filter _ (fst (load_records env args fasta)))) as [|[|m]];
      simpl in Hc; lia. }
  split; [exact Ht|].
  rewrite main_closed_form. unfold main_outcome. rewrite Ht.
  destruct (is_nil (fst (load_records env args fasta))); split; reflexivity.
Qed.

Lemma main_needs_two_records_witness :
  snd (main small_catalog always_answers example_args
         [mkSeqRecord "s1" "Sarawak|2015" (bases "A" 93);
          mkSeqRecord "s3" "NA|2014" (bases "C" 95)] initial_world)
  = Exit 1%Z.
Proof.
  apply (main_needs_two_records small_catalog always_answers example_args).
  vm_compute. apply le_n.
Defined.

(** ** The last segment wins *)

Lemma last_or_cons {A B : Type} (f : A -> B) (d : B) (x : A) (l : list A) :
  last_or f d (x :: l) = last_or f (f x) l.
Proof.
  unfold last_or. simpl. destruct (rev l); reflexivity.
Qed.

Lemma fold_pipe_last (parts : list string) (rc : option string) (y : option Z) :
  fold_left pipe_step parts (rc, y)
  = (last_or Some rc (filter country_like parts),
     last_or (fun p => Some (PyStr.int p)) y (filter year_fullmatch parts)).
Proof.
  revert rc y; induction parts as [|p t IH]; intros rc y; [reflexivity|].
  cbn [fold_left filter]. unfold pipe_step at 2, country_like at 1.
  destruct (year_fullmatch p); cbn [negb andb].
  - now rewrite IH, last_or_cons.
  - destruct (PyStr.isalpha p || PyStr.contains "_" p); rewrite IH; [|reflexivity].
    now rewrite last_or_cons.
Qed.

Lemma fold_slash_last (parts : list string) (rc : option string) (y : option Z) :
  fold_left slash_step parts (rc, y)
  = (rc, last_or (fun p => Some (slash_year p)) y (filter PyStr.isdigit parts)).
Proof.
  revert rc y; induction parts as [|p t IH]; intros rc y; [reflexivity|].
  cbn [fold_left filter]. unfold slash_step at 2.
  destruct (PyStr.isdigit p); rewrite IH; [|reflexivity].
  now rewrite last_or_cons.
Qed.

Lemma country_like_nonempty (part : string) :
  country_like part = true -> PyStr.nonempty part = true.
Proof.
  unfold country_like. destruct part; [|reflexivity].
  intros H. apply andb_prop in H as [_ H]. discriminate H.
Qed.

(** Between pipes the last segment of each kind wins: the raw country is
    the last segment that is alphabetic or has an underscore and is not
    year-shaped, and the year is the number of the last year-shaped
    segment; between slashes the year is that of the last numeric
    segment, 2000 added when it has two digits. *)
Theorem parse_header_last_segment (env : Catalog) (header : string) :
  let h := PyStr.strip (PyStr.remove_char ">" header) in
  (PyStr.contains "|" h = true ->
   fst (fst (parse_header env header))
   = last_or (fun p => p) Unknown (filter country_like (PyStr.split "|" h))
   /\ snd (parse_header env header)
      = last_or (fun p => Year (PyStr.int p)) YearUnknown
                (filter year_fullmatch (PyStr.split "|" h)))
  /\ (PyStr.contains "|" h = false -> PyStr.contains "/" h = true ->
      snd (parse_header env header)
      = last_or (fun p => if (slash_year p =? 0)%Z then YearUnknown else Year (slash_year p))
                YearUnknown (filter PyStr.isdigit (PyStr.split "/" h))).
Proof.
  intros h. unfold parse_header. fold h. split.
  - intros Hp. rewrite Hp, fold_pipe_last. cbn [fst snd]. split.
    + unfold last_or.
      destruct (rev (filter country_like (PyStr.split "|" h))) as [|x l] eqn:E; [reflexivity|].
      assert (Hx : In x (filter country_like (PyStr.split "|" h))).
      { apply in_rev. rewrite E. now left. }
      apply filter_In in Hx as [_ Hx]. now rewrite (country_like_nonempty x Hx).
    + unfold last_or.
      destruct (rev (filter year_fullmatch (PyStr.split "|" h))) as [|x l] eqn:E; [reflexivity|].
      assert (Hx : In x (filter year_fullmatch (PyStr.split "|" h))).
      { apply in_rev. rewrite E. now left. }
      apply filter_In in Hx as [_ Hx]. apply year_fullmatch_range in Hx.
      destruct (PyStr.int x =? 0)%Z eqn:E0; [|reflexivity].
      apply Z.eqb_eq in E0. lia.
  - intros Hp Hs. rewrite Hp, Hs, fold_slash_last. cbn [fst snd].
    unfold last_or. destruct (rev (filter PyStr.isdigit (PyStr.split "/" h))); reflexivity.
Qed.

Example parse_header_last_country :
  parse_header small_catalog "Sarawak|Human|2015|1999"
  = ("Human", catalog_resolve small_catalog "Human", Year 1999%Z).
Proof. reflexivity. Qed.
